(** * dalymi resources: a shallow embedding of [dalymi/resources.py]

    The development follows the Python module top to bottom: the
    [Resource] base class with its four capability stubs and its
    context-taking wrappers, the [LocalFileMixin], [PandasDF],
    [PandasCSV] and [Pickle].  Python exceptions are values of [exn];
    code that touches the file system lives in a state-and-exception
    monad over [World].

    What Python and the operating system do underneath is embedded
    from their own sources as far as the module uses it:
    [posixpath.split] and [dirname], [os.makedirs], [os.path.isfile],
    [os.remove] and the markup of [str.format], over a store of
    directories and regular files (no links, no permissions) in which
    paths are looked up name by name, [.] and [..] included.  A CSV
    file is its header and its records of text fields; what pandas
    writes for a cell and reads from a column of fields, and what
    pickle writes for an object and reads from a stream, is left to
    a [Runtime]. *)

From Stdlib Require Import String Ascii List ZArith Lia Bool.
From stdpp Require Import base option list gmap sets strings pretty.


(** ** Python exceptions *)

Inductive Errno := ENOENT | EEXIST | EISDIR | ENOTDIR.

(** The exception classes the module can meet.  [OSError e] stands for
    the subclass Python picks from the errno ([FileNotFoundError],
    [FileExistsError], [IsADirectoryError], [NotADirectoryError]);
    [OtherException c] is any further class, by name. *)
Inductive ExcClass :=
| KeyError
| IndexError
| ValueError
| TypeError
| AttributeError
| AssertionError
| NotImplementedError
| ParserError
| UnpicklingError
| OSError (e : Errno)
| OtherException (cls : string).

Record exn := Exc { exc_class : ExcClass; exc_msg : string }.

Definition is_OSError (c : ExcClass) : bool :=
  match c with OSError _ => true | _ => false end.

Definition is_FileExistsError (c : ExcClass) : bool :=
  match c with OSError EEXIST => true | _ => false end.

Inductive Result (A : Type) :=
| Ok (a : A)
| Raise (e : exn).
Arguments Ok {A} a.
Arguments Raise {A} e.

(** [msg] mentions [s]: [s] occurs in it. *)
Definition mentions (msg s : string) : Prop :=
  ∃ pre post, msg = pre +:+ s +:+ post.

(** [str(x)] of an attribute that defaults to [None]. *)
Definition py_str (x : option string) : string :=
  match x with Some s => s | None => "None" end.

(** ** Path strings

    [posix_split] and [dirname] are [posixpath.split] and
    [posixpath.dirname]; [components], [is_abs] and [trailing_slash]
    are how the kernel reads a path string. *)

Definition slash : ascii := "/"%char.

Definition is_slash (c : ascii) : bool := bool_decide (c = slash).

Definition str_empty (s : string) : bool :=
  match s with EmptyString => true | String _ _ => false end.

(** [(p[:i], p[i:])] for [i = p.rfind('/') + 1]. *)
Fixpoint split_last (p : string) : string * string :=
  match p with
  | EmptyString => (EmptyString, EmptyString)
  | String c s =>
      let '(h, t) := split_last s in
      if str_empty h
      then (if is_slash c then (String c EmptyString, s) else (EmptyString, String c s))
      else (String c h, t)
  end.

(** [s.rstrip('/')]. *)
Fixpoint rstrip_slash (s : string) : string :=
  match s with
  | EmptyString => EmptyString
  | String c s' =>
      let r := rstrip_slash s' in
      if str_empty r
      then (if is_slash c then EmptyString else String c EmptyString)
      else String c r
  end.

(** [if head and head != sep*len(head): head = head.rstrip(sep)]:
    a head made of slashes only is kept as it is. *)
Definition strip_head (head : string) : string :=
  if str_empty (rstrip_slash head) then head else rstrip_slash head.

Definition posix_split (p : string) : string * string :=
  let '(h, t) := split_last p in (strip_head h, t).

Definition dirname (p : string) : string := fst (posix_split p).

Fixpoint has_slash (s : string) : bool :=
  match s with
  | EmptyString => false
  | String c s' => is_slash c || has_slash s'
  end.

Definition is_abs (p : string) : bool :=
  match p with String c _ => is_slash c | EmptyString => false end.

Fixpoint trailing_slash (p : string) : bool :=
  match p with
  | EmptyString => false
  | String c EmptyString => is_slash c
  | String _ s => trailing_slash s
  end.

(** The names between the slashes of [p], empty ones dropped. *)
Fixpoint components (p : string) : list string :=
  match p with
  | EmptyString => []
  | String c s =>
      if is_slash c then components s
      else if is_abs s || str_empty s then String c EmptyString :: components s
      else match components s with
           | x :: xs => String c x :: xs
           | [] => [String c EmptyString]
           end
  end.

(** ** Decimal digits *)

Definition is_digit (c : ascii) : bool :=
  let n := nat_of_ascii c in (48 <=? n)%nat && (n <=? 57)%nat.

Fixpoint all_digits (s : string) : bool :=
  match s with
  | EmptyString => true
  | String c s' => is_digit c && all_digits s'
  end.

Fixpoint digits_value (acc : N) (s : string) : N :=
  match s with
  | EmptyString => acc
  | String c s' => digits_value (10 * acc + (N_of_ascii c - 48)) s'
  end.

(** ** What is left open

    What the embedding leaves to the Python runtime, to pandas and
    to pickle.  [range_label i] is the cell that shows the row label
    [i] of a default index.  [format_field ctx v accessors conv spec]
    is what [str.format] makes of a looked-up value [v] under the
    rest of a replacement field: attribute and index accessors, a
    conversion, a format specification (the plain field [{key}] never
    asks).  [recursion_limit] is how many calls of [os.makedirs] the
    interpreter lets nest where the module calls it: what
    [sys.getrecursionlimit()] leaves once the frames of the caller
    are taken off.

    A CSV file holds text.  [cell_text c] is the field [to_csv]
    writes for the cell [c]; [read_column fields] are the cells
    [read_csv] makes of the fields of one column, whose type it
    infers from all of them together, one cell for each field.
    [read_wide header records] is what [read_csv] makes of a table
    in which some record has more fields than the header (it may
    take the leading fields for row labels, or refuse): columns, row
    labels and rows.

    [pickle_dumps obj] is the stream [pickle.dump] writes for [obj],
    or the error it raises for an object that cannot be pickled;
    [pickle_loads bytes] is what [pickle.load] makes of a stream. *)
Class Runtime (Cell Obj : Type) := {
  range_label : nat → Cell;
  format_field :
    gmap string string → string → string → option ascii → string → Result string;
  recursion_limit : nat;
  cell_text : Cell → string;
  read_column : list string → list Cell;
  read_column_length : ∀ fields, length (read_column fields) = length fields;
  read_wide :
    list string → list (list string) → Result (list string * list Cell * list (list Cell));
  pickle_dumps : Obj → Result string;
  pickle_loads : string → Result Obj
}.

(** ** A runtime to run examples with

    Cells are integers, strings and missing values.  [read_column]
    follows the type inference of [read_csv] where the outcome is
    plain: a column in which every field is an integer literal is a
    column of integers; a column with a field that is a word of
    letters (and none of the words that read as a number, a truth
    value or a missing value) is a column of objects, in which the
    markers of a missing value read as [NaN] and every other field
    as the string it is.  Of any other column (fractions, truth
    values, numbers with gaps) the cells are left as [Unread]: the
    value [read_csv] makes of the text, whichever it is.  A table
    with a record longer than its header is refused.  An object is
    named by the stream it pickles to, or cannot be pickled. *)

Inductive Scalar :=
| Int (z : Z)
| Str (s : string)
| NaN
| Unread (text : string).

Inductive PyObject :=
| Picklable (stream : string)
| Unpicklable (repr : string).

Inductive Dtype := Int64 | Object | Undetermined.

Definition is_letter (c : ascii) : bool :=
  let n := nat_of_ascii c in
  ((65 <=? n)%nat && (n <=? 90)%nat) || ((97 <=? n)%nat && (n <=? 122)%nat).

Fixpoint all_letters (s : string) : bool :=
  match s with
  | EmptyString => true
  | String c s' => is_letter c && all_letters s'
  end.

(** [s.lower()], on the letters of ASCII. *)
Fixpoint lower (s : string) : string :=
  match s with
  | EmptyString => EmptyString
  | String c s' =>
      let n := nat_of_ascii c in
      String (if (65 <=? n)%nat && (n <=? 90)%nat then ascii_of_nat (n + 32) else c)
             (lower s')
  end.

(** An integer literal that fits 64 bits whatever its digits are:
    an optional minus sign, then one to eighteen digits. *)
Definition int_literal (field : string) : option Z :=
  let '(negative, digits) :=
    match field with
    | String "-" rest => (true, rest)
    | _ => (false, field)
    end in
  if negb (str_empty digits) && all_digits digits && (String.length digits <=? 18)%nat
  then Some (if negative : bool then (- Z.of_N (digits_value 0 digits))%Z
             else Z.of_N (digits_value 0 digits))
  else None.

(** The fields [read_csv] takes for a missing value. *)
Definition na_values : list string :=
  [""; "#N/A"; "#N/A N/A"; "#NA"; "-1.#IND"; "-1.#QNAN"; "-NaN"; "-nan"; "1.#IND";
   "1.#QNAN"; "<NA>"; "N/A"; "NA"; "NULL"; "NaN"; "None"; "n/a"; "nan"; "null"].

Definition is_na (field : string) : bool := bool_decide (field ∈ na_values).

(** A word of letters that reads as nothing but itself. *)
Definition plain_word (field : string) : bool :=
  negb (str_empty field) && all_letters field
  && negb (bool_decide (lower field ∈
             ["inf"; "infinity"; "nan"; "na"; "null"; "none"; "true"; "false"])).

Definition column_dtype (fields : list string) : Dtype :=
  if forallb (λ field, bool_decide (is_Some (int_literal field))) fields then Int64
  else if existsb plain_word fields then Object
  else Undetermined.

Definition read_field (dtype : Dtype) (field : string) : Scalar :=
  match dtype with
  | Int64 => match int_literal field with Some z => Int z | None => Unread field end
  | Object => if is_na field then NaN else Str field
  | Undetermined => Unread field
  end.

Definition scalar_text (c : Scalar) : string :=
  match c with
  | Int z => pretty z
  | Str s => s
  | NaN => EmptyString
  | Unread text => text
  end.

Definition sample_runtime : Runtime Scalar PyObject :=
  {| range_label := λ i, Int (Z.of_nat i);
     format_field := λ _ _ _ _ _, Raise (Exc ValueError "Invalid format specifier");
     recursion_limit := 1000;
     cell_text := scalar_text;
     read_column := λ fields, read_field (column_dtype fields) <$> fields;
     read_column_length := λ fields, length_fmap (read_field (column_dtype fields)) fields;
     read_wide := λ _ _, Raise (Exc ParserError "Error tokenizing data");
     pickle_dumps := λ obj,
       match obj with
       | Picklable stream => Ok stream
       | Unpicklable repr =>
           Raise (Exc (OtherException "PicklingError") ("Can't pickle " +:+ repr))
       end;
     pickle_loads := λ bytes,
       if str_empty bytes then Raise (Exc (OtherException "EOFError") "Ran out of input")
       else Ok (Picklable bytes) |}.

Section Store.

Context `{Runtime Cell Obj}.

(** ** Tabular values and the file system

    A tabular value is what the code uses of a pandas [DataFrame]:
    its column labels, its row labels (the index) and its rows of
    cells. *)

Record DataFrame := {
  df_columns : list string;
  df_index : list Cell;
  df_rows : list (list Cell)
}.

(** What a regular file holds: nothing, delimited text (a header
    row, then one record of fields per row) or a pickle stream. *)
Inductive Content :=
| EmptyFile
| CsvText (header : list string) (records : list (list string))
| PickleStream (bytes : string).

Inductive Node :=
| File (c : Content)
| Dir.

(** Keys are absolute, dot-free name sequences; the root is [[]]. *)
Record World := {
  cwd : list string;
  tree : gmap (list string) Node
}.

Definition node_at (t : gmap (list string) Node) (k : list string) : option Node :=
  match k with
  | [] => Some Dir
  | _ => t !! k
  end.

Definition is_dot (c : string) : bool := bool_decide (c = ".") || bool_decide (c = "..").

(** The key one name further on from [cur]. *)
Definition lex_step (cur : list string) (c : string) : list string :=
  if bool_decide (c = ".") then cur
  else if bool_decide (c = "..") then removelast cur
  else cur ++ [c].

(** One step of path lookup: the directory [cur] must exist. *)
Definition step (t : gmap (list string) Node) (cur : list string) (c : string)
  : Errno + list string :=
  match node_at t cur with
  | Some Dir => inr (lex_step cur c)
  | Some (File _) => inl ENOTDIR
  | None => inl ENOENT
  end.

Fixpoint walk (t : gmap (list string) Node) (cur : list string) (cs : list string)
  : Errno + list string :=
  match cs with
  | [] => inr cur
  | c :: cs' =>
      match step t cur c with
      | inr k => walk t k cs'
      | inl e => inl e
      end
  end.

Definition start_dir (w : World) (p : string) : list string :=
  if is_abs p then [] else cwd w.

(** The key a path names; every directory on the way must exist, the
    last name need not.  A trailing slash asks for a directory. *)
Definition namei (w : World) (p : string) : Errno + list string :=
  if str_empty p then inl ENOENT
  else walk (tree w) (start_dir w p)
            (components p ++ (if trailing_slash p then ["."] else [])).

Definition stat (w : World) (p : string) : Errno + Node :=
  match namei w p with
  | inr k => match node_at (tree w) k with
             | Some n => inr n
             | None => inl ENOENT
             end
  | inl e => inl e
  end.

(** The existing directory that is to hold the last name of [p], and
    that name; [inl EEXIST] when [p] is the root. *)
Definition parent_of (w : World) (p : string) : Errno + (list string * string) :=
  if str_empty p then inl ENOENT
  else match rev (components p) with
       | [] => inl EEXIST
       | last :: rinit =>
           match walk (tree w) (start_dir w p) (rev rinit) with
           | inr d => match node_at (tree w) d with
                      | Some Dir => inr (d, last)
                      | Some (File _) => inl ENOTDIR
                      | None => inl ENOENT
                      end
           | inl e => inl e
           end
       end.

Definition set_tree (w : World) (t : gmap (list string) Node) : World :=
  {| cwd := cwd w; tree := t |}.

(** [mkdir(2)]. *)
Definition sys_mkdir (w : World) (p : string) : Errno + World :=
  match parent_of w p with
  | inr (d, last) =>
      if is_dot last then inl EEXIST
      else match node_at (tree w) (d ++ [last]) with
           | Some _ => inl EEXIST
           | None => inr (set_tree w (<[d ++ [last] := Dir]> (tree w)))
           end
  | inl e => inl e
  end.

(** [unlink(2)]. *)
Definition sys_unlink (w : World) (p : string) : Errno + World :=
  match parent_of w p with
  | inr (d, last) =>
      if is_dot last then inl EISDIR
      else match node_at (tree w) (d ++ [last]) with
           | Some (File _) =>
               if trailing_slash p then inl ENOTDIR
               else inr (set_tree w (delete (d ++ [last]) (tree w)))
           | Some Dir => inl EISDIR
           | None => inl ENOENT
           end
  | inl e => inl e
  end.

(** [open(p, O_WRONLY|O_CREAT|O_TRUNC)], the write and the close. *)
Definition sys_write (w : World) (p : string) (c : Content) : Errno + World :=
  match parent_of w p with
  | inr (d, last) =>
      if is_dot last || trailing_slash p then inl EISDIR
      else match node_at (tree w) (d ++ [last]) with
           | Some Dir => inl EISDIR
           | _ => inr (set_tree w (<[d ++ [last] := File c]> (tree w)))
           end
  | inl EEXIST => inl EISDIR
  | inl e => inl e
  end.

(** [open(p, O_WRONLY|O_CREAT|O_TRUNC)] alone: the file is created,
    or emptied; the key of the open file. *)
Definition sys_creat (w : World) (p : string) : Errno + (list string * World) :=
  match parent_of w p with
  | inr (d, last) =>
      if is_dot last || trailing_slash p then inl EISDIR
      else match node_at (tree w) (d ++ [last]) with
           | Some Dir => inl EISDIR
           | _ => inr (d ++ [last],
                       set_tree w (<[d ++ [last] := File EmptyFile]> (tree w)))
           end
  | inl EEXIST => inl EISDIR
  | inl e => inl e
  end.

(** [open(p, O_RDONLY)], the read and the close. *)
Definition sys_read (w : World) (p : string) : Errno + Content :=
  match stat w p with
  | inr (File c) => inr c
  | inr Dir => inl EISDIR
  | inl e => inl e
  end.

(** ** The state-and-exception monad

    A Python call either returns or raises; what it did to the file
    system before raising stays done. *)

Definition M (A : Type) : Type := World → Result A * World.

Definition ret {A} (a : A) : M A := λ w, (Ok a, w).

Definition raise {A} (e : exn) : M A := λ w, (Raise e, w).

Definition bind {A B} (m : M A) (k : A → M B) : M B :=
  λ w, match m w with
       | (Ok a, w') => k a w'
       | (Raise e, w') => (Raise e, w')
       end.

(** [try: m except <classes in catches>: handler]. *)
Definition try_except {A} (m : M A) (catches : ExcClass → bool) (handler : exn → M A) : M A :=
  λ w, match m w with
       | (Raise e, w') => if catches (exc_class e) then handler e w' else (Raise e, w')
       | r => r
       end.

(** A computation that cannot touch the store. *)
Definition lift {A} (r : Result A) : M A := λ w, (r, w).

Notation "x <- m ;; k" := (bind m (λ x, k))
  (at level 100, m at next level, right associativity).
Notation "m ;;; k" := (bind m (λ _, k))
  (at level 100, right associativity).

(** ** [os] and [os.path] *)

Definition strerror (e : Errno) : string :=
  match e with
  | ENOENT => "[Errno 2] No such file or directory"
  | EEXIST => "[Errno 17] File exists"
  | EISDIR => "[Errno 21] Is a directory"
  | ENOTDIR => "[Errno 20] Not a directory"
  end.

Definition os_error (e : Errno) (p : string) : exn :=
  Exc (OSError e) (strerror e +:+ ": '" +:+ p +:+ "'").

Definition syscall (f : World → Errno + World) (p : string) : M unit :=
  λ w, match f w with
       | inr w' => (Ok (), w')
       | inl e => (Raise (os_error e p), w)
       end.

(** [os.path.exists], [os.path.isdir], [os.path.isfile]: a failed
    [stat] is answered with [False]. *)
Definition path_exists (p : string) (w : World) : bool :=
  match stat w p with inr _ => true | inl _ => false end.

Definition path_isdir (p : string) (w : World) : bool :=
  match stat w p with inr Dir => true | _ => false end.

Definition path_isfile (p : string) (w : World) : bool :=
  match stat w p with inr (File _) => true | _ => false end.

Definition os_path_exists (p : string) : M bool := λ w, (Ok (path_exists p w), w).
Definition os_path_isdir (p : string) : M bool := λ w, (Ok (path_isdir p w), w).
Definition os_path_isfile (p : string) : M bool := λ w, (Ok (path_isfile p w), w).

Definition os_mkdir (p : string) : M unit := syscall (λ w, sys_mkdir w p) p.

Definition os_remove (p : string) : M unit := syscall (λ w, sys_unlink w p) p.

Definition write_file (p : string) (c : Content) : M unit :=
  syscall (λ w, sys_write w p c) p.

(** [open(p, 'wb')]: the open file. *)
Definition open_wb (p : string) : M (list string) :=
  λ w, match sys_creat w p with
       | inr (k, w') => (Ok k, w')
       | inl e => (Raise (os_error e p), w)
       end.

(** The write to an open file [k], and the close. *)
Definition write_open (k : list string) (c : Content) : M unit :=
  λ w, (Ok (), set_tree w (<[k := File c]> (tree w))).

Definition read_file (p : string) : M Content :=
  λ w, match sys_read w p with
       | inr c => (Ok c, w)
       | inl e => (Raise (os_error e p), w)
       end.

Definition recursion_error : exn :=
  Exc (OtherException "RecursionError") "maximum recursion depth exceeded".

(** The last lines of [os.makedirs]:
    [try: mkdir(name, mode)
     except OSError: if not exist_ok or not path.isdir(name): raise]. *)
Definition mkdir_leaf (name : string) (exist_ok : bool) : M unit :=
  try_except (os_mkdir name) is_OSError
    (λ e, isdir <- os_path_isdir name ;;
          if negb exist_ok || negb isdir then raise e else ret ()).

(** [os.makedirs(name, exist_ok=exist_ok)], with [fuel] calls left
    to nest: the function calls itself on [head] for as long as the
    parent is missing, and a call beyond what the interpreter allows
    is a [RecursionError], raised before anything was created. *)
Fixpoint os_makedirs_fuel (fuel : nat) (name : string) (exist_ok : bool) : M unit :=
  match fuel with
  | 0 => raise recursion_error
  | S fuel' =>
      let '(head, tail) := posix_split name in
      let '(head, tail) :=
        if str_empty tail then posix_split head else (head, tail) in
      let parents_missing : M bool :=
        if negb (str_empty head) && negb (str_empty tail)
        then (found <- os_path_exists head ;; ret (negb found))
        else ret false in
      missing <- parents_missing ;;
      if missing : bool
      then
        try_except (os_makedirs_fuel fuel' head exist_ok) is_FileExistsError
                   (λ _, ret ()) ;;;
        if bool_decide (tail = ".") then ret () else mkdir_leaf name exist_ok
      else mkdir_leaf name exist_ok
  end.

Definition os_makedirs (name : string) (exist_ok : bool) : M unit :=
  os_makedirs_fuel recursion_limit name exist_ok.

(** ** [str.format] with keyword arguments

    The template is read left to right as CPython's markup iterator
    does: literal text, the escapes [{{] and [}}], and replacement
    fields [{field_name!conversion:format_spec}].  A field is looked
    up and rendered as soon as it has been read, so a syntax error is
    only raised when the reading gets to it. *)

Inductive Segment :=
| Lit (c : ascii)
| Field (field_name : string) (conversion : option ascii) (format_spec : string).

Inductive Mode :=
| Text
| InName (name : string)
| InIndex (name : string)
| InConversion (name : string)
| AfterConversion (name : string) (conv : ascii)
| InSpec (name : string) (conv : option ascii) (spec : string) (depth : nat).

Definition value_error (msg : string) : exn := Exc ValueError msg.

Definition snoc (s : string) (c : ascii) : string := s +:+ String c EmptyString.

Definition emit (x : Segment) (r : list Segment * option exn) : list Segment * option exn :=
  (x :: fst r, snd r).

Definition lbrace : ascii := "{"%char.
Definition rbrace : ascii := "}"%char.

Fixpoint scan (m : Mode) (s : string) : list Segment * option exn :=
  match m, s with
  | Text, EmptyString => ([], None)
  | Text, String c s' =>
      if bool_decide (c = lbrace) then
        match s' with
        | EmptyString => ([], Some (value_error "Single '{' encountered in format string"))
        | String c' s'' =>
            if bool_decide (c' = lbrace) then emit (Lit lbrace) (scan Text s'')
            else scan (InName EmptyString) s'
        end
      else if bool_decide (c = rbrace) then
        match s' with
        | EmptyString => ([], Some (value_error "Single '}' encountered in format string"))
        | String c' s'' =>
            if bool_decide (c' = rbrace) then emit (Lit rbrace) (scan Text s'')
            else ([], Some (value_error "Single '}' encountered in format string"))
        end
      else emit (Lit c) (scan Text s')
  | InName _, EmptyString | InIndex _, EmptyString =>
      ([], Some (value_error "expected '}' before end of string"))
  | InName name, String c s' =>
      if bool_decide (c = lbrace) then
        ([], Some (value_error "unexpected '{' in field name"))
      else if bool_decide (c = "["%char) then scan (InIndex (snoc name c)) s'
      else if bool_decide (c = rbrace) then emit (Field name None EmptyString) (scan Text s')
      else if bool_decide (c = ":"%char) then scan (InSpec name None EmptyString 1) s'
      else if bool_decide (c = "!"%char) then scan (InConversion name) s'
      else scan (InName (snoc name c)) s'
  | InIndex name, String c s' =>
      if bool_decide (c = "]"%char) then scan (InName (snoc name c)) s'
      else scan (InIndex (snoc name c)) s'
  | InConversion _, EmptyString =>
      ([], Some (value_error "end of string while looking for conversion specifier"))
  | InConversion name, String c s' => scan (AfterConversion name c) s'
  | AfterConversion _ _, EmptyString | InSpec _ _ _ _, EmptyString =>
      ([], Some (value_error "unmatched '{' in format spec"))
  | AfterConversion name conv, String c s' =>
      if bool_decide (c = rbrace) then emit (Field name (Some conv) EmptyString) (scan Text s')
      else if bool_decide (c = ":"%char) then scan (InSpec name (Some conv) EmptyString 1) s'
      else ([], Some (value_error "expected ':' after conversion specifier"))
  | InSpec name conv spec depth, String c s' =>
      if bool_decide (c = lbrace) then scan (InSpec name conv (snoc spec c) (S depth)) s'
      else if bool_decide (c = rbrace) then
        match depth with
        | 1 => emit (Field name conv spec) (scan Text s')
        | _ => scan (InSpec name conv (snoc spec c) (pred depth)) s'
        end
      else scan (InSpec name conv (snoc spec c) depth) s'
  end.

Definition markup (template : string) : list Segment * option exn := scan Text template.

(** [field_name] is an argument name followed by [.attr] and [[key]]
    accessors. *)
Fixpoint arg_name (field_name : string) : string * string :=
  match field_name with
  | EmptyString => (EmptyString, EmptyString)
  | String c s =>
      if bool_decide (c = "."%char) || bool_decide (c = "["%char)
      then (EmptyString, field_name)
      else let '(a, rest) := arg_name s in (String c a, rest)
  end.

(** An empty or numeric argument name is positional; [format] is
    called with keyword arguments only. *)
Definition positional (name : string) : bool := str_empty name || all_digits name.

(** The index of a positional field; an empty name is numbered
    automatically, from [0]. *)
Definition positional_index (name : string) : Result N :=
  let n := digits_value 0 name in
  if (n <=? 9223372036854775807)%N then Ok n
  else Raise (value_error "Too many decimal digits in format string").

Definition plain_field (x : Segment) : bool :=
  match x with
  | Lit _ => true
  | Field field_name conv spec =>
      str_empty (snd (arg_name field_name)) && bool_decide (conv = None) && str_empty spec
  end.

Definition render (ctx : gmap string string) (x : Segment) : Result string :=
  match x with
  | Lit c => Ok (String c EmptyString)
  | Field field_name conv spec =>
      let '(name, accessors) := arg_name field_name in
      if positional name
      then match positional_index name with
           | Ok n =>
               (* the tuple of positional arguments is empty *)
               Raise (Exc IndexError ("Replacement index " +:+ pretty n
                                      +:+ " out of range for positional args tuple"))
           | Raise e => Raise e
           end
      else match ctx !! name with
           | None => Raise (Exc KeyError name)
           | Some v =>
               if plain_field x then Ok v
               else format_field ctx v accessors conv spec
           end
  end.

Fixpoint render_all (ctx : gmap string string) (xs : list Segment) (tail_error : option exn)
  : Result string :=
  match xs with
  | [] => match tail_error with Some e => Raise e | None => Ok EmptyString end
  | x :: xs' =>
      match render ctx x with
      | Ok s => match render_all ctx xs' tail_error with
                | Ok r => Ok (s +:+ r)
                | Raise e => Raise e
                end
      | Raise e => Raise e
      end
  end.

Definition format (template : string) (ctx : gmap string string) : Result string :=
  let '(xs, err) := markup template in render_all ctx xs err.

(** The keys a template asks the context for. *)
Definition placeholders (template : string) : list string :=
  omap (λ x, match x with
             | Field field_name _ _ => Some (fst (arg_name field_name))
             | Lit _ => None
             end) (fst (markup template)).

(** ** [class Resource]

    A resource object: its attributes, and for each of the four
    capabilities the method a subclass or mix-in supplies, if any
    ([None]: the stub of [Resource] itself is what gets called).  An
    assertion looks at the data and returns or raises. *)

Record Resource (Data : Type) := {
  name : option string;
  loc : option string;
  assertions : list (Data → Result unit);
  check_method : option (string → M bool);
  delete_method : option (string → M unit);
  load_method : option (string → M Data);
  save_method : option (string → Data → M unit)
}.
Arguments name {Data} _.
Arguments loc {Data} _.
Arguments assertions {Data} _.
Arguments check_method {Data} _.
Arguments delete_method {Data} _.
Arguments load_method {Data} _.
Arguments save_method {Data} _.

Section ResourceMethods.

Context {Data : Type}.
Implicit Types (self : Resource Data) (context : gmap string string).

Definition Resource_check self (path : string) : M bool :=
  let msg := "Could not *check* resource <" +:+ py_str (name self)
             +:+ "> (and possibly others), " in
  let msg := msg +:+ "because the resource class has no implementation of the `check` method." in
  raise (Exc NotImplementedError msg).

Definition Resource_delete self (path : string) : M unit :=
  let msg := "Could not *delete* resource <" +:+ py_str (name self)
             +:+ "> (and possibly others), " in
  let msg := msg +:+ "because the resource class has no implementation of the `delete` method." in
  raise (Exc NotImplementedError msg).

Definition Resource_load self (path : string) : M Data :=
  let msg := "Could not *load* resource <" +:+ py_str (name self)
             +:+ "> (and possibly others), " in
  let msg := msg +:+ "because the resource class has no implementation of the `load` method." in
  raise (Exc NotImplementedError msg).

Definition Resource_save self (path : string) (data : Data) : M unit :=
  let msg := "Could not *save* resource <" +:+ py_str (name self)
             +:+ "> (and possibly others), " in
  let msg := msg +:+ "because the resource class has no implementation of the `save` method." in
  raise (Exc NotImplementedError msg).

(** Method lookup: the supplied method, else the stub. *)
Definition check self : string → M bool :=
  default (Resource_check self) (check_method self).
Definition delete_ self : string → M unit :=
  default (Resource_delete self) (delete_method self).
Definition load self : string → M Data :=
  default (Resource_load self) (load_method self).
Definition save self : string → Data → M unit :=
  default (Resource_save self) (save_method self).

(** [self.loc.format( **context)]. *)
Definition loc_format self context : Result string :=
  match loc self with
  | Some template => format template context
  | None => Raise (Exc AttributeError "'NoneType' object has no attribute 'format'")
  end.

Fixpoint run_assertions (l : list (Data → Result unit)) (data : Data) : Result unit :=
  match l with
  | [] => Ok ()
  | assertion :: l' =>
      match assertion data with
      | Ok _ => run_assertions l' data
      | Raise e => Raise e
      end
  end.

Definition assert_integrity self (data : Data) : Result unit :=
  run_assertions (assertions self) data.

Definition _check self context : M bool :=
  path <- lift (loc_format self context) ;;
  check self path.

Definition _delete self context : M unit :=
  path <- lift (loc_format self context) ;;
  delete_ self path.

Definition _load self context : M Data :=
  path <- lift (loc_format self context) ;;
  data <- load self path ;;
  lift (assert_integrity self data) ;;;
  ret data.

Definition _save self (data : Data) context : M unit :=
  lift (assert_integrity self data) ;;;
  path <- lift (loc_format self context) ;;
  save self path data.

End ResourceMethods.

(** A class statement: the attributes are those the base
    initialiser sets, a method the class or a mix-in defines
    overrides the inherited one. *)
Definition subclass {Data} (base : Resource Data)
    (check : option (string → M bool)) (delete : option (string → M unit))
    (load : option (string → M Data)) (save : option (string → Data → M unit))
  : Resource Data :=
  {| name := name base; loc := loc base; assertions := assertions base;
     check_method := from_option Some (check_method base) check;
     delete_method := from_option Some (delete_method base) delete;
     load_method := from_option Some (load_method base) load;
     save_method := from_option Some (save_method base) save |}.

(** The plain [Resource.__init__]: stubs only. *)
Definition Resource_init {Data} (name loc : option string)
    (assertions : list (Data → Result unit)) : Resource Data :=
  {| name := name; loc := loc; assertions := assertions;
     check_method := None; delete_method := None;
     load_method := None; save_method := None |}.

(** ** [class LocalFileMixin] *)

Definition LocalFileMixin_makedirs (path : string) : M unit :=
  let dirs := dirname path in
  if negb (str_empty dirs) then os_makedirs dirs true else ret ().

Definition LocalFileMixin_check (path : string) : M bool := os_path_isfile path.

Definition LocalFileMixin_delete (path : string) : M unit := os_remove path.

(** ** [class PandasDF] *)

(** The builtin [set(...)] called with the given positional
    arguments. *)
Definition py_set (args : list (list string)) : Result (gset string) :=
  match args with
  | [] => Ok ∅
  | [xs] => Ok (list_to_set xs)
  | _ => Raise (Exc TypeError ("set expected at most 1 argument, got "
                               +:+ pretty (length args)))
  end.

(** [assert cond, msg]: the message is only evaluated when the
    condition fails, and its evaluation may itself raise. *)
Definition py_assert (cond : bool) (msg : Result string) : Result unit :=
  if cond then Ok ()
  else match msg with
       | Ok m => Raise (Exc AssertionError m)
       | Raise e => Raise e
       end.

(** ['Present: {}. Expected: {}.'.format(x)], two replacement fields
    for one argument. *)
Definition format_present_expected (x : gset string) : Result string :=
  Raise (Exc IndexError "Replacement index 1 out of range for positional args tuple").

Definition assert_columns (name : option string) (columns : option (list string))
    (df : DataFrame) : Result unit :=
  match columns with
  | Some cols =>
      py_assert
        (bool_decide (list_to_set (df_columns df) =@{gset string} list_to_set cols))
        (let prefix := "Columns of resource <" +:+ py_str name
                       +:+ "> do not match expected. " in
         match py_set [df_columns df; cols] with
         | Ok x =>
             match format_present_expected x with
             | Ok suffix => Ok (prefix +:+ suffix)
             | Raise e => Raise e
             end
         | Raise e => Raise e
         end)
  | None => Ok ()
  end.

(** [PandasDF.__init__]; the class supplies none of the four
    methods. *)
Definition PandasDF (name loc : option string) (columns : option (list string))
    (assertions : list (DataFrame → Result unit)) : Resource DataFrame :=
  let assertions := [assert_columns name columns] ++ assertions in
  Resource_init name loc assertions.

(** ** [class PandasCSV(LocalFileMixin, PandasDF)] *)

(** The record of a row: each cell as its text. *)
Definition row_text (row : list Cell) : list string := cell_text <$> row.

(** [df.to_csv(path, index=index)]: the header row and one record
    per row, each cell as its text; with [index] the row labels come
    first, under an empty header name. *)
Definition to_csv (df : DataFrame) (path : string) (index : bool) : M unit :=
  write_file path
    (if index
     then CsvText (EmptyString :: df_columns df)
                  (zip_with cons (cell_text <$> df_index df)
                                 (row_text <$> df_rows df))
     else CsvText (df_columns df) (row_text <$> df_rows df)).

(** An empty header name in position [i] reads as [Unnamed: i]. *)
Definition name_unnamed (header : list string) : list string :=
  imap (λ i h, if str_empty h then "Unnamed: " +:+ pretty i else h) header.

(** A header name seen [k > 0] times before reads with the suffix
    [.k]. *)
Fixpoint mangle_dupe_cols (seen names : list string) : list string :=
  match names with
  | [] => []
  | n :: names' =>
      (match length (filter (eq n) seen) with
       | 0 => n
       | k => n +:+ "." +:+ pretty k
       end) :: mangle_dupe_cols (n :: seen) names'
  end.

(** The fields of column [j]: a record that ends before it has an
    empty field there. *)
Definition column_fields (records : list (list string)) (j : nat) : list string :=
  (λ record, default EmptyString (record !! j)) <$> records.

(** The [n] rows of a table given by its columns. *)
Definition rows_of (columns : list (list Cell)) (n : nat) : list (list Cell) :=
  (λ i, omap (λ column, column !! i) columns) <$> seq 0 n.

(** [pd.read_csv(path)]: the first row names the columns; the
    fields below are read column by column, and the rows are
    labelled [0, 1, ...]. *)
Definition read_csv (path : string) : M DataFrame :=
  c <- read_file path ;;
  match c with
  | EmptyFile | CsvText [] _ =>
      raise (Exc (OtherException "EmptyDataError") "No columns to parse from file")
  | CsvText header records =>
      if forallb (λ record, length record <=? length header) records
      then ret {| df_columns := mangle_dupe_cols [] (name_unnamed header);
                  df_index := range_label <$> seq 0 (length records);
                  df_rows :=
                    rows_of (read_column <$>
                               (column_fields records <$> seq 0 (length header)))
                            (length records) |}
      else
        match read_wide header records with
        | Ok (columns, index, rows) =>
            ret {| df_columns := columns; df_index := index; df_rows := rows |}
        | Raise e => raise e
        end
  | PickleStream _ => raise (Exc ParserError "Error tokenizing data")
  end.

Definition PandasCSV_load (path : string) : M DataFrame := read_csv path.

Definition PandasCSV_save (path : string) (data : DataFrame) : M unit :=
  LocalFileMixin_makedirs path ;;;
  to_csv data path false.

Definition PandasCSV (name loc : option string) (columns : option (list string))
    (assertions : list (DataFrame → Result unit)) : Resource DataFrame :=
  subclass (PandasDF name loc columns assertions)
    (Some LocalFileMixin_check) (Some LocalFileMixin_delete)
    (Some PandasCSV_load) (Some PandasCSV_save).

(** ** [class Pickle(LocalFileMixin, Resource)] *)

(** [with open(path, 'rb') as f: return pickle.load(f)]. *)
Definition Pickle_load (path : string) : M Obj :=
  c <- read_file path ;;
  match c with
  | PickleStream bytes => lift (pickle_loads bytes)
  | EmptyFile => raise (Exc (OtherException "EOFError") "Ran out of input")
  | CsvText _ _ => raise (Exc UnpicklingError "invalid load key")
  end.

(** [self.makedirs(path)], then [with open(path, 'wb') as f:
    pickle.dump(data, f)]: the file is open, and empty, by the time
    the object is pickled. *)
Definition Pickle_save (path : string) (data : Obj) : M unit :=
  LocalFileMixin_makedirs path ;;;
  f <- open_wb path ;;
  stream <- lift (pickle_dumps data) ;;
  write_open f (PickleStream stream).

Definition Pickle (name loc : option string) (assertions : list (Obj → Result unit))
  : Resource Obj :=
  subclass (Resource_init name loc assertions)
    (Some LocalFileMixin_check) (Some LocalFileMixin_delete)
    (Some Pickle_load) (Some Pickle_save).


(** ** What the claims speak of *)





(** A head as [split] returns it: without a trailing slash, unless it
    is slashes only. *)
Definition stripped (s : string) : Prop :=
  trailing_slash s = false ∨ components s = [].

(** [t'] keeps the directories of [t]. *)
Definition keeps_dirs (t t' : gmap (list string) Node) : Prop :=
  ∀ k, node_at t k = Some Dir → node_at t' k = Some Dir.

(** The keys that the names [cs] pass through from [cur] on. *)
Fixpoint lex_keys (cur : list string) (cs : list string) : list (list string) :=
  match cs with
  | [] => []
  | c :: cs' => lex_step cur c :: lex_keys (lex_step cur c) cs'
  end.

(** The directories above [path]: the keys its directory part
    passes through. *)
Definition ancestors (w : World) (path : string) : list (list string) :=
  lex_keys (start_dir w (dirname path)) (components (dirname path)).

(** Create-if-absent, one name after the other from [cur] on: the
    key reached and the tree left, or the errno at the first name
    that is in the way. *)
Fixpoint mkdir_p (t : gmap (list string) Node) (cur : list string) (cs : list string)
  : (Errno + list string) * gmap (list string) Node :=
  match cs with
  | [] => (inr cur, t)
  | c :: cs' =>
      match node_at t cur with
      | Some Dir =>
          match node_at t (lex_step cur c) with
          | Some Dir => mkdir_p t (lex_step cur c) cs'
          | Some (File _) => (inl EEXIST, t)
          | None =>
              if is_dot c then (inl ENOENT, t)
              else mkdir_p (<[lex_step cur c := Dir]> t) (lex_step cur c) cs'
          end
      | Some (File _) => (inl ENOTDIR, t)
      | None => (inl ENOENT, t)
      end
  end.

(** What the helper leaves, when it did not run out of calls. *)
Definition makedirs_as_mkdir_p (path : string) (w : World) : Prop :=
  ∃ r, LocalFileMixin_makedirs path w =
         (r, set_tree w (snd (mkdir_p (tree w) (start_dir w (dirname path))
                                      (components (dirname path))))) ∧
       (∀ d t', mkdir_p (tree w) (start_dir w (dirname path)) (components (dirname path))
                  = (inr d, t') → r = Ok ()).

(** A well-formed store: the working directory is a directory, and
    so is the parent of everything that exists. *)
Definition well_formed (w : World) : Prop :=
  node_at (tree w) (cwd w) = Some Dir ∧
  ∀ k c, is_Some (tree w !! (k ++ [c])) → node_at (tree w) k = Some Dir.

Definition is_file (n : option Node) : bool :=
  match n with Some (File _) => true | _ => false end.

Definition is_dir (n : option Node) : bool :=
  match n with Some Dir => true | _ => false end.

(** The keys that a list of segments asks for. *)
Definition keys (xs : list Segment) : list string :=
  omap (λ x, match x with
             | Field field_name _ _ => Some (fst (arg_name field_name))
             | Lit _ => None
             end) xs.

(** A [{key}]-style placeholder: a keyword name and nothing else. *)
Definition named_plain (x : Segment) : bool :=
  match x with
  | Lit _ => true
  | Field field_name _ _ => plain_field x && negb (positional (fst (arg_name field_name)))
  end.

(** A template of literal text, doubled braces and [{key}]
    placeholders only, which the markup iterator reads to its end. *)
Definition plain_template (template : string) : bool :=
  match markup template with
  | (xs, None) => forallb named_plain xs
  | (_, Some _) => false
  end.

(** The text with every placeholder replaced by its value. *)
Fixpoint substitute (ctx : gmap string string) (xs : list Segment) : string :=
  match xs with
  | [] => EmptyString
  | Lit c :: xs' => String c (substitute ctx xs')
  | Field field_name _ _ :: xs' =>
      default EmptyString (ctx !! fst (arg_name field_name)) +:+ substitute ctx xs'
  end.

(** The error of an unimplemented capability [op] of [self]: a
    [NotImplementedError], which is no [OSError], whose message
    names the resource (the name it was given stands between angle
    brackets; a resource that was given none shows as [None]) and
    the capability. *)
Definition unsupported {Data} (op : string) (self : Resource Data) (e : exn) : Prop :=
  exc_class e = NotImplementedError ∧
  is_OSError (exc_class e) = false ∧
  (∀ given, name self = Some given →
            mentions (exc_msg e) ("resource <" +:+ given +:+ ">")) ∧
  (name self = None → mentions (exc_msg e) "resource <None>") ∧
  mentions (exc_msg e) ("*" +:+ op +:+ "*") ∧
  mentions (exc_msg e) ("`" +:+ op +:+ "` method").

(** The message all four stubs share, up to the capability. *)
Definition stub_message (op : string) (name : option string) : string :=
  "Could not *" +:+ op +:+ "* resource <" +:+ py_str name
  +:+ "> (and possibly others), because the resource class has no implementation of the `"
  +:+ op +:+ "` method.".

(** An integrity violation that names the resource. *)
Definition integrity_violation {Data} (self : Resource Data) (e : exn) : Prop :=
  exc_class e = AssertionError ∧ mentions (exc_msg e) (py_str (name self)).



(** [self] composes the local-file capability. *)
Definition local_file {Data} (self : Resource Data) : Prop :=
  check_method self = Some LocalFileMixin_check ∧
  delete_method self = Some LocalFileMixin_delete.

Definition passes {Data} (data : Data) (assertion : Data → Result unit) : Prop :=
  assertion data = Ok ().

Definition fails {Data} (data : Data) (assertion : Data → Result unit) : Prop :=
  ∃ e, assertion data = Raise e.

(** ** Sample data *)

Definition sample_context : gmap string string := {["run" := "r1"]}.

(** A home directory and nothing else. *)
Definition sample_world : World :=
  {| cwd := ["home"]; tree := {[ ["home"] := Dir ]} |}.

Definition sample_frame : DataFrame :=
  {| df_columns := ["b"; "a"];
     df_index := [range_label 10; range_label 20];
     df_rows := [[range_label 1; range_label 2]; [range_label 3; range_label 4]] |}.

Definition other_frame : DataFrame :=
  {| df_columns := ["a"; "c"]; df_index := []; df_rows := [] |}.

Definition sample_csv : Resource DataFrame :=
  PandasCSV (Some "sales") (Some "out/{run}/sales.csv") (Some ["a"; "b"]) [].

(** [def nonempty(df): assert len(df) > 0]. *)
Definition nonempty (df : DataFrame) : Result unit :=
  py_assert (match df_rows df with [] => false | _ => true end) (Ok EmptyString).

Definition strict_csv : Resource DataFrame :=
  PandasCSV (Some "sales") (Some "sales.csv") None [nonempty].

(** A home directory that holds [sales.csv], a header and no rows. *)
Definition stored_world : World :=
  {| cwd := ["home"];
     tree := {[ ["home"] := Dir; ["home"; "sales.csv"] := File (CsvText ["a"] []) ]} |}.

(** A resource of a kind with no capability of its own. *)
Definition bare_resource : Resource DataFrame :=
  Resource_init (Some "sales") (Some "out/{run}/sales.csv") [].

(** What [pd.read_csv] makes of [sales.csv] in [stored_world]. *)
Definition stored_frame : DataFrame :=
  {| df_columns := ["a"]; df_index := []; df_rows := [] |}.




(** Resources whose location is no [{key}]-style template. *)
Definition brace_resource : Resource DataFrame :=
  Resource_init (Some "sales") (Some "out/}/sales.csv") [].

Definition numbered_resource : Resource DataFrame :=
  Resource_init (Some "sales") (Some "out/{0}/sales.csv") [].

Definition numbered_context : gmap string string := {["0" := "r1"]}.

(** ** Further notions *)

Fixpoint no_brace (s : string) : bool :=
  match s with
  | EmptyString => true
  | String c s' => negb (bool_decide (c = lbrace)) && negb (bool_decide (c = rbrace)) && no_brace s'
  end.


(** The parent of everything that exists is a directory. *)
Definition tree_wf (t : gmap (list string) Node) : Prop :=
  ∀ k c, is_Some (t !! (k ++ [c])) → node_at t k = Some Dir.

(** [w'] has everything [w] has: the same working directory, every
    directory still a directory, every regular file still a regular
    file (its content may differ). *)
Definition keeps_entries (w w' : World) : Prop :=
  cwd w' = cwd w ∧
  ∀ k, (node_at (tree w) k = Some Dir → node_at (tree w') k = Some Dir) ∧
       (is_file (node_at (tree w) k) = true → is_file (node_at (tree w') k) = true).

(** The two lines the [save] methods of the local-file kinds share:
    [self.makedirs(path)], then the file is written. *)
Definition store (path : string) (c : Content) : M unit :=
  LocalFileMixin_makedirs path ;;;
  write_file path c.

(** What [to_csv(path, index=False)] writes for [df]. *)
Definition csv_of (df : DataFrame) : Content :=
  CsvText (df_columns df) (row_text <$> df_rows df).

(** [os.path.basename]. *)
Definition basename (p : string) : string := snd (posix_split p).




(** [text] with every brace doubled: the template that stands for
    the literal [text]. *)
Fixpoint escape (text : string) : string :=
  match text with
  | EmptyString => EmptyString
  | String c text' =>
      if bool_decide (c = lbrace) || bool_decide (c = rbrace)
      then String c (String c (escape text'))
      else String c (escape text')
  end.

(** Each of the four operations ends with [e] and leaves the store
    as it was; the save does so once the assertions have let [data]
    through. *)
Definition every_operation_raises {Data} (self : Resource Data)
    (context : gmap string string) (data : Data) (w : World) (e : exn) : Prop :=
  _check self context w = (Raise e, w) ∧
  _delete self context w = (Raise e, w) ∧
  _load self context w = (Raise e, w) ∧
  (assert_integrity self data = Ok () → _save self data context w = (Raise e, w)).

Definition sample_pickle : Resource Obj :=
  Pickle (Some "model") (Some "out/{run}/model.pkl") [].
(** ** The monad and the assertions: basic facts *)

Lemma run_assertions_Ok {Data} (l : list (Data → Result unit)) data :
  run_assertions l data = Ok () ↔ Forall (passes data) l.
Proof.
  induction l as [|a l IH]; simpl.
  - split; [constructor | done].
  - unfold passes at 1. destruct (a data) as [[]|e] eqn:Ha.
    + rewrite IH. split; [by constructor | by inversion 1].
    + split; [done | inversion 1; unfold passes in *; congruence].
Qed.

(** The first assertion that fails decides the error. *)
Lemma run_assertions_first {Data} (l : list (Data → Result unit)) data i a e :
  l !! i = Some a → a data = Raise e → Forall (passes data) (take i l) →
  run_assertions l data = Raise e.
Proof.
  revert i. induction l as [|b l IH]; intros [|i] Hi Ha Hbefore; simplify_eq/=.
  - by rewrite Ha.
  - apply Forall_cons in Hbefore as [Hb Hbefore]. rewrite Hb. eauto.
Qed.

Lemma run_assertions_Raise {Data} (l : list (Data → Result unit)) data e :
  run_assertions l data = Raise e →
  ∃ i a, l !! i = Some a ∧ a data = Raise e ∧ Forall (passes data) (take i l).
Proof.
  induction l as [|b l IH]; simpl; [done|].
  destruct (b data) as [[]|e'] eqn:Hb.
  - intros (i & a & ? & ? & ?)%IH. exists (S i), a. split_and!; [done..|].
    by constructor.
  - intros [= ->]. exists 0, b. split_and!; [done..|constructor].
Qed.

Lemma run_assertions_fails {Data} (l : list (Data → Result unit)) data :
  Exists (fails data) l → ∃ e, run_assertions l data = Raise e.
Proof.
  induction 1 as [a l [e He]|a l _ [e IH]]; simpl.
  - rewrite He. eauto.
  - destruct (a data) as [[]|e']; eauto.
Qed.

(** ** Save: assertions first *)

(** C1.  [_save] runs the assertions on the data before it resolves
    the path and before it calls the kind's [save]: if some
    assertion fails, the call raises the assertions' error whatever
    the context and the kind are, the store is left as it was, and an
    existence check answers as before; if all pass, what is left is
    the path resolution followed by the kind's [save]. *)
Theorem save_asserts_before_writing {Data} (self : Resource Data)
    (context : gmap string string) (data : Data) (w : World) :
  (Exists (fails data) (assertions self) →
     ∃ e, assert_integrity self data = Raise e ∧
          _save self data context w = (Raise e, w) ∧
          snd (_save self data context w) = w ∧
          _check self context (snd (_save self data context w)) = _check self context w) ∧
  (Forall (passes data) (assertions self) →
     _save self data context w =
       (path <- lift (loc_format self context) ;; save self path data) w).
Proof.
  split.
  - intros [e He]%run_assertions_fails. exists e.
    assert (_save self data context w = (Raise e, w)) as Hsave.
    { unfold _save, assert_integrity. rewrite He. reflexivity. }
    rewrite Hsave. done.
  - intros Hall%run_assertions_Ok.
    unfold _save, assert_integrity. rewrite Hall. reflexivity.
Qed.

(** ** Load: assertions after the kind's load, in order *)

Lemma _load_unfold {Data} (self : Resource Data) context w :
  _load self context w =
    match loc_format self context with
    | Raise e => (Raise e, w)
    | Ok path =>
        match load self path w with
        | (Raise e, w') => (Raise e, w')
        | (Ok data, w') =>
            match assert_integrity self data with
            | Ok _ => (Ok data, w')
            | Raise e => (Raise e, w')
            end
        end
    end.
Proof.
  unfold _load, bind, lift, ret.
  destruct (loc_format self context) as [path|e]; [|done].
  destruct (load self path w) as [[data|e] w']; [|done].
  by destruct (assert_integrity self data).
Qed.

Lemma _save_unfold {Data} (self : Resource Data) data context w :
  _save self data context w =
    match assert_integrity self data with
    | Raise e => (Raise e, w)
    | Ok _ =>
        match loc_format self context with
        | Raise e => (Raise e, w)
        | Ok path => save self path data w
        end
    end.
Proof.
  unfold _save, bind, lift.
  destruct (assert_integrity self data); [|done].
  by destruct (loc_format self context).
Qed.

Lemma _check_unfold {Data} (self : Resource Data) context w :
  _check self context w =
    match loc_format self context with
    | Raise e => (Raise e, w)
    | Ok path => check self path w
    end.
Proof. unfold _check, bind, lift. by destruct (loc_format self context). Qed.

Lemma _delete_unfold {Data} (self : Resource Data) context w :
  _delete self context w =
    match loc_format self context with
    | Raise e => (Raise e, w)
    | Ok path => delete_ self path w
    end.
Proof. unfold _delete, bind, lift. by destruct (loc_format self context). Qed.

(** C2, as amended.  When the path resolves and the kind's [load]
    returns [data], [_load] runs the assertions on [data] in the
    order of the list: the first one that fails ends the call with
    that assertion's own exception, passed on as it is; when all
    pass, [_load] returns [data]. *)
Theorem load_asserts_in_order {Data} (self : Resource Data)
    (context : gmap string string) (w w' : World) (path : string) (data : Data) :
  loc_format self context = Ok path →
  load self path w = (Ok data, w') →
  (∀ i a e, assertions self !! i = Some a → a data = Raise e →
            Forall (passes data) (take i (assertions self)) →
            _load self context w = (Raise e, w')) ∧
  (Forall (passes data) (assertions self) → _load self context w = (Ok data, w')).
Proof.
  intros Hpath Hload. rewrite _load_unfold, Hpath, Hload.
  unfold assert_integrity. split.
  - intros i a e Hi Ha Hbefore. by rewrite (run_assertions_first _ _ i a e).
  - intros Hall%run_assertions_Ok. by rewrite Hall.
Qed.

(** ** The column assertion *)

Lemma assert_columns_declared (name : option string) (cols : list string) (df : DataFrame) :
  assert_columns name (Some cols) df =
    if bool_decide (list_to_set (df_columns df) =@{gset string} list_to_set cols)
    then Ok ()
    else Raise (Exc TypeError "set expected at most 1 argument, got 2").
Proof. unfold assert_columns, py_assert. by case_bool_decide. Qed.

(** C3.  With declared columns the assertion passes exactly when the
    set of the value's column names is the declared set.  When the
    two differ, building the message calls [set] with two arguments:
    what is raised is that [TypeError], not an [AssertionError] with
    the two sets in its message, and it is the error a save of the
    value ends with. *)
Theorem assert_columns_outcome (name : option string) (cols : list string) (df : DataFrame) :
  (assert_columns name (Some cols) df = Ok () ↔
   list_to_set (df_columns df) =@{gset string} list_to_set cols) ∧
  (list_to_set (df_columns df) ≠@{gset string} list_to_set cols →
   assert_columns name (Some cols) df =
     Raise (Exc TypeError "set expected at most 1 argument, got 2") ∧
   ∀ loc supplied context w,
     _save (PandasCSV name loc (Some cols) supplied) df context w =
       (Raise (Exc TypeError "set expected at most 1 argument, got 2"), w)).
Proof.
  rewrite assert_columns_declared. split.
  - case_bool_decide; split; done.
  - intros Hne. rewrite bool_decide_eq_false_2 by done. split; [done|].
    intros loc supplied context w. rewrite _save_unfold.
    unfold assert_integrity.
    change (assertions (PandasCSV name loc (Some cols) supplied))
      with (assert_columns name (Some cols) :: supplied).
    cbn [run_assertions]. rewrite assert_columns_declared.
    by rewrite bool_decide_eq_false_2 by done.
Qed.

(** C10.  Without declared columns the column assertion, which comes
    first in the list, passes on every value: the integrity check is
    that of the caller's assertions alone, run in their order, and
    an error of the check is the error of one of them. *)
Theorem undeclared_columns_accept_all (name loc : option string)
    (supplied : list (DataFrame → Result unit)) (df : DataFrame) :
  let self := PandasCSV name loc None supplied in
  assertions self = assert_columns name None :: supplied ∧
  assertions (PandasDF name loc None supplied) = assert_columns name None :: supplied ∧
  assert_columns name None df = Ok () ∧
  assert_integrity self df = run_assertions supplied df ∧
  assert_integrity (PandasDF name loc None supplied) df = run_assertions supplied df ∧
  (Forall (passes df) supplied → assert_integrity self df = Ok ()) ∧
  (∀ e, assert_integrity self df = Raise e →
        ∃ i a, supplied !! i = Some a ∧ a df = Raise e ∧
               Forall (passes df) (take i supplied)) ∧
  (∀ context w,
     _save self df context w =
       (lift (run_assertions supplied df) ;;;
        path <- lift (loc_format self context) ;;
        save self path df) w).
Proof.
  intros self.
  assert (assert_integrity self df = run_assertions supplied df) as Heq by done.
  split_and!; try done.
  - intros Hall. rewrite Heq. by apply run_assertions_Ok.
  - intros e. rewrite Heq. apply run_assertions_Raise.
Qed.

(** ** Unimplemented capabilities *)

Lemma append_cons (x : ascii) (a b : string) : String x a +:+ b = String x (a +:+ b).
Proof. reflexivity. Qed.

Lemma app_assoc_str (a b c : string) : (a +:+ b) +:+ c = a +:+ (b +:+ c).
Proof. induction a as [|x a IH]; [done|]. by rewrite !append_cons, IH. Qed.

Lemma app_nil_r_str (s : string) : s +:+ "" = s.
Proof. induction s as [|x s IH]; [done|]. by rewrite append_cons, IH. Qed.

Lemma stub_message_unsupported {Data} (self : Resource Data) (op : string) :
  unsupported op self (Exc NotImplementedError (stub_message op (name self))).
Proof.
  split_and!; [done..| | | |]; simpl exc_msg; unfold stub_message.
  - intros given ->. simpl py_str.
    exists ("Could not *" +:+ op +:+ "* "),
      (" (and possibly others), because the resource class has no implementation of the `"
       +:+ op +:+ "` method.").
    by rewrite !app_assoc_str.
  - intros ->. simpl py_str.
    exists ("Could not *" +:+ op +:+ "* "),
      (" (and possibly others), because the resource class has no implementation of the `"
       +:+ op +:+ "` method.").
    by rewrite !app_assoc_str.
  - exists "Could not ",
      (" resource <" +:+ py_str (name self)
       +:+ "> (and possibly others), because the resource class has no implementation of the `"
       +:+ op +:+ "` method.").
    by rewrite !app_assoc_str.
  - exists ("Could not *" +:+ op +:+ "* resource <" +:+ py_str (name self)
            +:+ "> (and possibly others), because the resource class has no implementation of the "),
      ".".
    by rewrite !app_assoc_str.
Qed.

Lemma Resource_check_raises {Data} (self : Resource Data) path w :
  Resource_check self path w = (Raise (Exc NotImplementedError (stub_message "check" (name self))), w).
Proof. unfold Resource_check, raise, stub_message. by rewrite !app_assoc_str. Qed.

Lemma Resource_delete_raises {Data} (self : Resource Data) path w :
  Resource_delete self path w = (Raise (Exc NotImplementedError (stub_message "delete" (name self))), w).
Proof. unfold Resource_delete, raise, stub_message. by rewrite !app_assoc_str. Qed.

Lemma Resource_load_raises {Data} (self : Resource Data) path w :
  Resource_load self path w = (Raise (Exc NotImplementedError (stub_message "load" (name self))), w).
Proof. unfold Resource_load, raise, stub_message. by rewrite !app_assoc_str. Qed.

Lemma Resource_save_raises {Data} (self : Resource Data) path data w :
  Resource_save self path data w = (Raise (Exc NotImplementedError (stub_message "save" (name self))), w).
Proof. unfold Resource_save, raise, stub_message. by rewrite !app_assoc_str. Qed.

Ltac stub_error :=
  unfold default, from_option, id;
  rewrite ?Resource_check_raises, ?Resource_delete_raises,
    ?Resource_load_raises, ?Resource_save_raises;
  eexists; split; [reflexivity | apply stub_message_unsupported].

(** C5.  A kind that supplies no method for a capability gets the
    stub of [Resource]: the call raises a [NotImplementedError],
    which is no [OSError], whose message names the resource, by the
    name it was given, and the capability, and it leaves the store
    alone.  The context-taking
    wrappers get there once the path has resolved and, for [_save],
    the assertions have passed. *)
Theorem missing_capability_raises {Data} (self : Resource Data)
    (path : string) (data : Data) (context : gmap string string) (w : World) :
  (check_method self = None →
     ∃ e, check self path w = (Raise e, w) ∧ unsupported "check" self e) ∧
  (delete_method self = None →
     ∃ e, delete_ self path w = (Raise e, w) ∧ unsupported "delete" self e) ∧
  (load_method self = None →
     ∃ e, load self path w = (Raise e, w) ∧ unsupported "load" self e) ∧
  (save_method self = None →
     ∃ e, save self path data w = (Raise e, w) ∧ unsupported "save" self e) ∧
  (loc_format self context = Ok path →
     (check_method self = None →
        ∃ e, _check self context w = (Raise e, w) ∧ unsupported "check" self e) ∧
     (delete_method self = None →
        ∃ e, _delete self context w = (Raise e, w) ∧ unsupported "delete" self e) ∧
     (load_method self = None →
        ∃ e, _load self context w = (Raise e, w) ∧ unsupported "load" self e) ∧
     (save_method self = None → assert_integrity self data = Ok () →
        ∃ e, _save self data context w = (Raise e, w) ∧ unsupported "save" self e)).
Proof.
  split_and!.
  - intros Hm. unfold check. rewrite Hm. stub_error.
  - intros Hm. unfold delete_. rewrite Hm. stub_error.
  - intros Hm. unfold load. rewrite Hm. stub_error.
  - intros Hm. unfold save. rewrite Hm. stub_error.
  - intros Hpath. split_and!.
    + intros Hm. rewrite _check_unfold, Hpath. unfold check. rewrite Hm.
      unfold unsupported. stub_error.
    + intros Hm. rewrite _delete_unfold, Hpath. unfold delete_. rewrite Hm.
      unfold unsupported. stub_error.
    + intros Hm. rewrite _load_unfold, Hpath. unfold load. rewrite Hm.
      unfold unsupported. stub_error.
    + intros Hm Hok. rewrite _save_unfold, Hok, Hpath. unfold save. rewrite Hm.
      unfold unsupported. stub_error.
Qed.

(** ** Path lookup *)


Lemma snoc_not_nil {A} (l : list A) (x : A) : l ++ [x] ≠ [].
Proof. by destruct l. Qed.

Lemma node_at_snoc (t : gmap (list string) Node) d c : node_at t (d ++ [c]) = t !! (d ++ [c]).
Proof. by destruct d. Qed.

Lemma node_at_insert (t : gmap (list string) Node) k (n : Node) x :
  k ≠ [] → node_at (<[k:=n]> t) x = if decide (x = k) then Some n else node_at t x.
Proof.
  intros Hk. destruct x as [|c x]; simpl.
  - by rewrite decide_False.
  - case_decide as Hx; [rewrite Hx; apply lookup_insert_eq | by apply lookup_insert_ne].
Qed.

Lemma node_at_delete (t : gmap (list string) Node) k x :
  k ≠ [] → node_at (delete k t) x = if decide (x = k) then None else node_at t x.
Proof.
  intros Hk. destruct x as [|c x]; simpl.
  - by rewrite decide_False.
  - case_decide as Hx; [rewrite Hx; apply lookup_delete_eq | by apply lookup_delete_ne].
Qed.

Lemma walk_app t cur cs cs' :
  walk t cur (cs ++ cs') =
    match walk t cur cs with
    | inr k => walk t k cs'
    | inl e => inl e
    end.
Proof.
  revert cur. induction cs as [|c cs IH]; intros cur; simpl; [done|].
  by destruct (step t cur c).
Qed.

Lemma step_keeps_dirs t t' cur c k :
  keeps_dirs t t' → step t cur c = inr k → step t' cur c = inr k.
Proof.
  intros Hkeep. unfold step.
  destruct (node_at t cur) as [[]|] eqn:Hcur; [done| |done].
  by rewrite (Hkeep _ Hcur).
Qed.

Lemma walk_keeps_dirs t t' cur cs k :
  keeps_dirs t t' → walk t cur cs = inr k → walk t' cur cs = inr k.
Proof.
  intros Hkeep. revert cur. induction cs as [|c cs IH]; intros cur; simpl; [done|].
  destruct (step t cur c) as [e|k'] eqn:Hstep; [done|].
  rewrite (step_keeps_dirs _ _ _ _ _ Hkeep Hstep). apply IH.
Qed.

Lemma keeps_dirs_insert (t : gmap (list string) Node) k (n : Node) :
  k ≠ [] → node_at t k ≠ Some Dir → keeps_dirs t (<[k:=n]> t).
Proof.
  intros Hk Hnot x Hx. rewrite node_at_insert by done.
  case_decide; [congruence | done].
Qed.

Lemma keeps_dirs_delete (t : gmap (list string) Node) k :
  k ≠ [] → node_at t k ≠ Some Dir → keeps_dirs t (delete k t).
Proof.
  intros Hk Hnot x Hx. rewrite node_at_delete by done.
  case_decide; [congruence | done].
Qed.

(** What [parent_of] found, in terms of the lookup of the whole
    path. *)
Lemma parent_of_inr w p d last :
  parent_of w p = inr (d, last) →
  str_empty p = false ∧
  ∃ init, components p = init ++ [last] ∧
          walk (tree w) (start_dir w p) init = inr d ∧
          node_at (tree w) d = Some Dir.
Proof.
  unfold parent_of. destruct (str_empty p); [done|].
  destruct (rev (components p)) as [|l rinit] eqn:Hrev; [done|].
  destruct (walk _ _ _) as [e|d'] eqn:Hwalk; [done|].
  destruct (node_at _ d') as [[]|] eqn:Hd; intros [= <- <-]. split; [done|].
  exists (rev rinit). split_and!; [|done..].
  by rewrite <-(rev_involutive (components p)), Hrev.
Qed.

Lemma parent_of_keeps_dirs w t' p d last :
  keeps_dirs (tree w) t' →
  parent_of w p = inr (d, last) → parent_of (set_tree w t') p = inr (d, last).
Proof.
  intros Hkeep Hp. destruct (parent_of_inr _ _ _ _ Hp) as (Hne & init & Hc & Hwalk & Hd).
  unfold parent_of. rewrite Hne, Hc, rev_unit, rev_involutive. simpl.
  change (start_dir (set_tree w t') p) with (start_dir w p).
  by rewrite (walk_keeps_dirs _ _ _ _ _ Hkeep Hwalk), (Hkeep _ Hd).
Qed.

(** The last name of a path that names something new or a file. *)
Lemma namei_parent w p d last :
  parent_of w p = inr (d, last) → is_dot last = false → trailing_slash p = false →
  namei w p = inr (d ++ [last]).
Proof.
  intros (Hne & init & Hc & Hwalk & Hd)%parent_of_inr Hdot Hslash.
  unfold namei. rewrite Hne, Hslash, app_nil_r, Hc, walk_app, Hwalk. simpl.
  unfold step, lex_step. rewrite Hd. unfold is_dot in Hdot.
  apply orb_false_iff in Hdot as [-> ->]. done.
Qed.

(** ** Existence check and delete of the local-file mix-in *)

Lemma sys_unlink_inr w p w' :
  sys_unlink w p = inr w' →
  ∃ d last c,
    parent_of w p = inr (d, last) ∧ is_dot last = false ∧ trailing_slash p = false ∧
    node_at (tree w) (d ++ [last]) = Some (File c) ∧
    w' = set_tree w (delete (d ++ [last]) (tree w)).
Proof.
  unfold sys_unlink. destruct (parent_of w p) as [e|[d last]] eqn:Hp; [done|].
  destruct (is_dot last) eqn:Hdot; [done|].
  destruct (node_at _ _) as [[c|]|] eqn:Hn; [|done..].
  destruct (trailing_slash p) eqn:Hslash; [done|].
  intros [= <-]. by exists d, last, c.
Qed.



Lemma os_remove_unfold p w :
  os_remove p w =
    match sys_unlink w p with
    | inr w' => (Ok (), w')
    | inl e => (Raise (os_error e p), w)
    end.
Proof. reflexivity. Qed.


(** ** Resolving the location template *)

Lemma placeholders_keys template : placeholders template = keys (fst (markup template)).
Proof. reflexivity. Qed.

Lemma render_named_plain (ctx : gmap string string) field_name conv spec :
  named_plain (Field field_name conv spec) = true →
  render ctx (Field field_name conv spec) =
    match ctx !! fst (arg_name field_name) with
    | Some v => Ok v
    | None => Raise (Exc KeyError (fst (arg_name field_name)))
    end.
Proof.
  unfold named_plain, render. intros [Hplain Hpos%negb_true_iff]%andb_true_iff.
  destruct (arg_name field_name) as [name accessors]. simpl in *.
  rewrite Hpos. destruct (ctx !! name); [|done]. by rewrite Hplain.
Qed.

Lemma render_all_plain_Ok (ctx : gmap string string) xs :
  forallb named_plain xs = true →
  (∀ k, k ∈ keys xs → is_Some (ctx !! k)) →
  render_all ctx xs None = Ok (substitute ctx xs).
Proof.
  induction xs as [|x xs IH]; [done|].
  intros [Hx Hxs]%andb_true_iff Hkeys. destruct x as [c|field_name conv spec].
  - simpl. rewrite IH; [done..|]. intros k Hk. apply Hkeys. by simpl.
  - cbn [render_all substitute]. rewrite render_named_plain by done.
    destruct (Hkeys (fst (arg_name field_name))) as [v Hv]; [simpl; left|].
    rewrite Hv, IH; [done..|]. intros k Hk. apply Hkeys. simpl. by right.
Qed.

Lemma render_all_plain_Raise (ctx : gmap string string) xs e :
  forallb named_plain xs = true →
  render_all ctx xs None = Raise e →
  ∃ k, e = Exc KeyError k ∧ k ∈ keys xs ∧ ctx !! k = None.
Proof.
  induction xs as [|x xs IH]; [done|].
  intros [Hx Hxs]%andb_true_iff. destruct x as [c|field_name conv spec].
  - simpl. destruct (render_all ctx xs None) as [r|e'] eqn:Hr; [done|].
    intros [= ->]. by apply IH.
  - cbn [render_all]. rewrite render_named_plain by done.
    destruct (ctx !! fst (arg_name field_name)) as [v|] eqn:Hv.
    + destruct (render_all ctx xs None) as [r|e'] eqn:Hr; [done|].
      intros [= ->]. destruct IH as (k & ? & ? & ?); [done..|].
      exists k. split_and!; [done| |done]. simpl. by right.
    + intros [= <-]. eexists. split_and!; [done| |done]. simpl. left.
Qed.

Lemma render_all_plain_Ok_inv (ctx : gmap string string) xs r :
  forallb named_plain xs = true →
  render_all ctx xs None = Ok r →
  ∀ k, k ∈ keys xs → is_Some (ctx !! k).
Proof.
  intros Hxs Hr k Hk. destruct (ctx !! k) as [v|] eqn:Hv; [done|]. exfalso.
  revert r Hr. induction xs as [|x xs IH]; intros r Hr; [by apply elem_of_nil in Hk|].
  apply andb_true_iff in Hxs as [Hx Hxs]. cbn [render_all] in Hr.
  destruct x as [c|field_name conv spec].
  - simpl in Hr, Hk. destruct (render_all ctx xs None) as [r'|] eqn:Hr'; [|done].
    by eapply IH.
  - rewrite render_named_plain in Hr by done.
    simpl in Hk. apply elem_of_cons in Hk as [->|Hk]; [by rewrite Hv in Hr|].
    destruct (ctx !! fst (arg_name field_name)); [|done].
    destruct (render_all ctx xs None) as [r'|] eqn:Hr'; [|done].
    by eapply IH.
Qed.

(** Only the values of the keys a template asks for matter. *)
Lemma render_all_plain_agree (ctx ctx' : gmap string string) xs :
  forallb named_plain xs = true →
  (∀ k, k ∈ keys xs → ctx' !! k = ctx !! k) →
  render_all ctx' xs None = render_all ctx xs None.
Proof.
  induction xs as [|x xs IH]; [done|].
  intros [Hx Hxs]%andb_true_iff Hkeys. destruct x as [c|field_name conv spec].
  - simpl. rewrite IH; [done..|]. intros k Hk. apply Hkeys. by simpl.
  - cbn [render_all]. rewrite !render_named_plain by done.
    rewrite (Hkeys (fst (arg_name field_name))) by (simpl; left).
    rewrite IH; [done..|]. intros k Hk. apply Hkeys. simpl. by right.
Qed.

Lemma plain_template_markup template :
  plain_template template = true →
  ∃ xs, markup template = (xs, None) ∧ forallb named_plain xs = true.
Proof.
  unfold plain_template. destruct (markup template) as [xs [e|]]; [done|]. eauto.
Qed.

(** C4, as amended.  For a template of literal text and [{key}]
    placeholders: resolving raises a [KeyError] exactly when some
    placeholder's key is missing from the context; when every key is
    there, it returns the template with each placeholder replaced by
    its value; keys that no placeholder asks for do not matter; and
    resolving leaves the store alone. *)
Theorem resolve_plain_template {Data} (self : Resource Data) (template : string)
    (context : gmap string string) :
  loc self = Some template →
  plain_template template = true →
  ((∃ k, k ∈ placeholders template ∧ context !! k = None) ↔
   (∃ e, loc_format self context = Raise e ∧ exc_class e = KeyError)) ∧
  (∀ e, loc_format self context = Raise e →
        exc_class e = KeyError ∧ exc_msg e ∈ placeholders template ∧
        context !! exc_msg e = None) ∧
  ((∀ k, k ∈ placeholders template → is_Some (context !! k)) →
   loc_format self context = Ok (substitute context (fst (markup template)))) ∧
  (∀ context' : gmap string string,
     (∀ k, k ∈ placeholders template → context' !! k = context !! k) →
     loc_format self context' = loc_format self context) ∧
  (∀ w : World, snd (lift (loc_format self context) w) = w).
Proof.
  intros Hloc (xs & Hm & Hxs)%plain_template_markup.
  assert (∀ c, loc_format self c = render_all c xs None) as Heq.
  { intros c. unfold loc_format, format. by rewrite Hloc, Hm. }
  rewrite placeholders_keys, Hm. simpl fst.
  assert (∀ e, loc_format self context = Raise e →
               exc_class e = KeyError ∧ exc_msg e ∈ keys xs ∧ context !! exc_msg e = None)
    as Hraise.
  { intros e. rewrite Heq. intros (k & -> & ? & ?)%render_all_plain_Raise; done. }
  split_and!; [split| | | |done].
  - intros (k & Hk & Hnone).
    destruct (loc_format self context) as [path|e] eqn:Hres.
    + rewrite Heq in Hres.
      destruct (render_all_plain_Ok_inv _ _ _ Hxs Hres k Hk) as [v Hv]. congruence.
    + exists e. split; [done|]. by apply Hraise.
  - intros (e & He & _). apply Hraise in He as (_ & ? & ?). eauto.
  - done.
  - intros Hall. rewrite Heq. by apply render_all_plain_Ok.
  - intros context' Hagree. rewrite !Heq. by apply render_all_plain_agree.
Qed.

(** ** Writing a file and reading it back *)

Lemma sys_write_inr w p c w' :
  sys_write w p c = inr w' →
  ∃ d last,
    parent_of w p = inr (d, last) ∧ is_dot last = false ∧ trailing_slash p = false ∧
    node_at (tree w) (d ++ [last]) ≠ Some Dir ∧
    w' = set_tree w (<[d ++ [last] := File c]> (tree w)).
Proof.
  unfold sys_write. destruct (parent_of w p) as [[]|[d last]] eqn:Hp; [done..|].
  destruct (is_dot last) eqn:Hdot; [done|].
  destruct (trailing_slash p) eqn:Hslash; [done|]. simpl.
  destruct (node_at _ _) as [[c'|]|] eqn:Hn; [|done|];
    intros [= <-]; exists d, last; by rewrite Hn.
Qed.

Lemma sys_read_after_write w p c w' : sys_write w p c = inr w' → sys_read w' p = inr c.
Proof.
  intros (d & last & Hp & Hdot & Hslash & Hn & ->)%sys_write_inr.
  assert (keeps_dirs (tree w) (<[d ++ [last] := File c]> (tree w))) as Hkeep.
  { apply keeps_dirs_insert; [apply snoc_not_nil | done]. }
  apply (parent_of_keeps_dirs _ _ _ _ _ Hkeep) in Hp.
  unfold sys_read, stat. rewrite (namei_parent _ _ _ _ Hp Hdot Hslash).
  simpl tree. rewrite node_at_insert by apply snoc_not_nil. by rewrite decide_True.
Qed.

Lemma sys_write_isfile w p c w' : sys_write w p c = inr w' → path_isfile p w' = true.
Proof.
  intros Hr%sys_read_after_write. unfold sys_read in Hr. unfold path_isfile.
  by destruct (stat w' p) as [e|[c'|]].
Qed.

Lemma write_file_Ok p c w w' :
  write_file p c w = (Ok (), w') → sys_write w p c = inr w'.
Proof.
  unfold write_file, syscall. destruct (sys_write w p c); [done | by intros [= <-]].
Qed.

Lemma read_file_after_write p c w w' :
  write_file p c w = (Ok (), w') → read_file p w' = (Ok c, w').
Proof.
  intros Hw%write_file_Ok%sys_read_after_write. unfold read_file. by rewrite Hw.
Qed.

(** ** Reading a header back *)




(** ** Round trip of a tabular value *)


Lemma _save_Ok {Data} (self : Resource Data) data context w w' :
  _save self data context w = (Ok (), w') →
  assert_integrity self data = Ok () ∧
  ∃ path, loc_format self context = Ok path ∧ save self path data w = (Ok (), w').
Proof.
  rewrite _save_unfold. destruct (assert_integrity self data) as [[]|]; [|done].
  destruct (loc_format self context) as [path|]; [|done]. eauto.
Qed.


(** ** A table through its text *)








Lemma read_csv_unfold path w :
  read_csv path w =
    match sys_read w path with
    | inr EmptyFile | inr (CsvText [] _) =>
        (Raise (Exc (OtherException "EmptyDataError") "No columns to parse from file"), w)
    | inr (CsvText header records) =>
        if forallb (λ record, length record <=? length header) records
        then (Ok {| df_columns := mangle_dupe_cols [] (name_unnamed header);
                    df_index := range_label <$> seq 0 (length records);
                    df_rows :=
                      rows_of (read_column <$>
                                 (column_fields records <$> seq 0 (length header)))
                              (length records) |}, w)
        else match read_wide header records with
             | Ok (columns, index, rows) =>
                 (Ok {| df_columns := columns; df_index := index; df_rows := rows |}, w)
             | Raise e => (Raise e, w)
             end
    | inr (PickleStream _) => (Raise (Exc ParserError "Error tokenizing data"), w)
    | inl e => (Raise (os_error e path), w)
    end.
Proof.
  unfold read_csv, bind, read_file.
  destruct (sys_read w path) as [e|[|[|h header] records|]]; try done.
  destruct (forallb _ records); [done|].
  by destruct (read_wide (h :: header) records) as [[[? ?] ?]|].
Qed.



(** ** Path strings: [split], [dirname] and the names of a path *)

Lemma is_slash_true c : is_slash c = true → c = slash.
Proof. unfold is_slash. by intros ?%bool_decide_eq_true. Qed.

Lemma str_empty_true s : str_empty s = true → s = EmptyString.
Proof. by destruct s. Qed.

Lemma str_empty_false s : str_empty s = false ↔ s ≠ EmptyString.
Proof. by destruct s. Qed.

Lemma components_cons c s :
  components (String c s) =
    if is_slash c then components s
    else if is_abs s || str_empty s then String c EmptyString :: components s
    else match components s with
         | x :: xs => String c x :: xs
         | [] => [String c EmptyString]
         end.
Proof. reflexivity. Qed.

Lemma components_nonempty c s : is_slash c = false → components (String c s) ≠ [].
Proof.
  intros Hc. simpl. rewrite Hc.
  destruct (is_abs s || str_empty s); [done|]. by destruct (components s).
Qed.

Lemma components_app_slash a b :
  components (a +:+ String slash b) = components a ++ components b.
Proof.
  induction a as [|c a IH]; [done|].
  rewrite append_cons, !(components_cons c). destruct (is_slash c) eqn:Hc; [done|].
  destruct a as [|c' a].
  - done.
  - rewrite IH. rewrite append_cons. simpl is_abs. simpl str_empty.
    rewrite !orb_false_r. destruct (is_slash c') eqn:Hc'; [done|].
    pose proof (components_nonempty c' a Hc') as Hne.
    by destruct (components (String c' a)).
Qed.

Lemma components_no_slash t :
  has_slash t = false → t ≠ EmptyString → components t = [t].
Proof.
  induction t as [|c t IH]; [done|].
  intros [Hc Ht]%orb_false_iff _. rewrite components_cons, Hc.
  destruct t as [|c' t]; [done|].
  rewrite IH by done.
  simpl in Ht. apply orb_false_iff in Ht as [Hc' Ht']. simpl. by rewrite Hc'.
Qed.

Lemma is_abs_app a b : a ≠ EmptyString → is_abs (a +:+ b) = is_abs a.
Proof. by destruct a. Qed.

(** [split_last]: the tail has no slash, the head is empty or ends
    in one. *)
Lemma split_last_spec p h t :
  split_last p = (h, t) →
  p = h +:+ t ∧ has_slash t = false ∧
  (h = EmptyString ∨ ∃ h', h = h' +:+ String slash EmptyString).
Proof.
  revert h t. induction p as [|c p IH]; intros h t; simpl.
  - intros [= <- <-]. auto.
  - destruct (split_last p) as [h0 t0]. destruct (IH _ _ eq_refl) as (-> & Ht0 & Hh0).
    destruct (str_empty h0) eqn:Hempty.
    + apply str_empty_true in Hempty as ->. simpl.
      destruct (is_slash c) eqn:Hc; intros [= <- <-].
      * apply is_slash_true in Hc as ->. split_and!; [done..|]. right. by exists EmptyString.
      * split_and!; [done| |by left]. simpl. by rewrite Hc.
    + intros [= <- <-]. split_and!; [done..|]. right.
      destruct Hh0 as [->|[h' ->]]; [done|]. by exists (String c h').
Qed.

Lemma rstrip_slash_cons c s :
  rstrip_slash (String c s) =
    if str_empty (rstrip_slash s)
    then (if is_slash c then EmptyString else String c EmptyString)
    else String c (rstrip_slash s).
Proof. reflexivity. Qed.

Lemma rstrip_slash_empty s : rstrip_slash s = EmptyString → components s = [].
Proof.
  induction s as [|c s IH]; [done|]. rewrite rstrip_slash_cons, components_cons.
  destruct (rstrip_slash s) as [|c' r]; simpl; [|done].
  destruct (is_slash c); [auto | done].
Qed.

Lemma rstrip_slash_is_abs s :
  rstrip_slash s ≠ EmptyString → is_abs (rstrip_slash s) = is_abs s.
Proof.
  destruct s as [|c s]; [done|]. rewrite rstrip_slash_cons.
  destruct (rstrip_slash s) as [|c' r]; simpl; [|done].
  by destruct (is_slash c) eqn:Hc.
Qed.

Lemma rstrip_slash_components s : components (rstrip_slash s) = components s.
Proof.
  induction s as [|c s IH]; [done|]. rewrite rstrip_slash_cons.
  destruct (rstrip_slash s) as [|c' r] eqn:Hr; simpl str_empty; cbv iota.
  - apply rstrip_slash_empty in Hr. rewrite (components_cons c s), Hr.
    destruct (is_slash c) eqn:Hc; [done|]. rewrite components_cons, Hc. simpl.
    by destruct (is_abs s || str_empty s).
  - assert (rstrip_slash s ≠ EmptyString) as Hne by (by rewrite Hr).
    pose proof (rstrip_slash_is_abs s Hne) as Habs. rewrite Hr in Habs.
    rewrite !(components_cons c), IH, Habs.
    assert (str_empty s = false) as -> by (by destruct s).
    done.
Qed.

Lemma rstrip_slash_trailing s : trailing_slash (rstrip_slash s) = false.
Proof.
  induction s as [|c s IH]; [done|]. rewrite rstrip_slash_cons.
  destruct (rstrip_slash s) as [|c' r]; simpl str_empty; cbv iota.
  - by destruct (is_slash c) eqn:Hc; simpl; rewrite ?Hc.
  - done.
Qed.

Lemma rstrip_slash_length s : String.length (rstrip_slash s) ≤ String.length s.
Proof.
  induction s as [|c s IH]; [done|]. rewrite rstrip_slash_cons.
  destruct (rstrip_slash s) as [|c' r]; simpl str_empty; cbv iota.
  - destruct (is_slash c); simpl; lia.
  - simpl in *. lia.
Qed.

Lemma strip_head_components h : components (strip_head h) = components h.
Proof.
  unfold strip_head. destruct (str_empty (rstrip_slash h)); [done|].
  apply rstrip_slash_components.
Qed.

Lemma strip_head_empty h : str_empty (strip_head h) = str_empty h.
Proof.
  unfold strip_head. destruct (rstrip_slash h) as [|c r] eqn:Hr; [done|].
  simpl. by destruct h.
Qed.

Lemma strip_head_is_abs h : is_abs (strip_head h) = is_abs h.
Proof.
  unfold strip_head. destruct (str_empty (rstrip_slash h)) eqn:He; [done|].
  apply rstrip_slash_is_abs. by apply str_empty_false.
Qed.

Lemma strip_head_stripped h : stripped (strip_head h).
Proof.
  unfold stripped, strip_head. destruct (str_empty (rstrip_slash h)) eqn:He.
  - right. by apply rstrip_slash_empty, str_empty_true.
  - left. apply rstrip_slash_trailing.
Qed.

Lemma strip_head_length h : String.length (strip_head h) ≤ String.length h.
Proof.
  unfold strip_head. destruct (str_empty (rstrip_slash h)); [done|].
  apply rstrip_slash_length.
Qed.

Lemma length_append a b :
  String.length (a +:+ b) = String.length a + String.length b.
Proof. induction a as [|c a IH]; [done|]. rewrite append_cons. simpl. by rewrite IH. Qed.

(** What [posixpath.split] returns. *)
Lemma posix_split_spec p head tail :
  posix_split p = (head, tail) →
  has_slash tail = false ∧
  components p = components head ++ (if str_empty tail then [] else [tail]) ∧
  (str_empty head = true → p = tail) ∧
  (str_empty head = false → is_abs head = is_abs p) ∧
  stripped head ∧
  String.length head + String.length tail ≤ String.length p.
Proof.
  unfold posix_split. destruct (split_last p) as [h t] eqn:Hsplit.
  intros [= <- <-]. apply split_last_spec in Hsplit as (-> & Ht & Hh).
  assert (components t = if str_empty t then [] else [t]) as Hct.
  { destruct t as [|c t]; [done|]. by apply components_no_slash. }
  split_and!.
  - done.
  - rewrite strip_head_components, <-Hct. destruct Hh as [->|[h' ->]]; [done|].
    rewrite app_assoc_str, append_cons. change (EmptyString +:+ t) with t.
    rewrite !components_app_slash. simpl. by rewrite app_nil_r.
  - rewrite strip_head_empty. by intros ->%str_empty_true.
  - rewrite strip_head_empty, strip_head_is_abs. intros Hne%str_empty_false.
    by rewrite is_abs_app.
  - apply strip_head_stripped.
  - rewrite length_append. pose proof (strip_head_length h). lia.
Qed.

(** ** Create-if-absent, name by name *)

Lemma step_lex (t : gmap (list string) Node) cur c :
  node_at t cur = Some Dir → step t cur c = inr (lex_step cur c).
Proof. unfold step, lex_step. by intros ->. Qed.

Lemma step_inr (t : gmap (list string) Node) cur c k :
  step t cur c = inr k → node_at t cur = Some Dir ∧ k = lex_step cur c.
Proof.
  unfold step, lex_step. destruct (node_at t cur) as [[]|]; [done| |done].
  by intros [= <-].
Qed.

Lemma lex_step_name cur c : is_dot c = false → lex_step cur c = cur ++ [c].
Proof.
  unfold is_dot, lex_step. intros [H1 H2]%orb_false_iff. by rewrite H1, H2.
Qed.

Lemma mkdir_p_app (t : gmap (list string) Node) cur cs cs' :
  mkdir_p t cur (cs ++ cs') =
    match mkdir_p t cur cs with
    | (inr d, t1) => mkdir_p t1 d cs'
    | (inl e, t1) => (inl e, t1)
    end.
Proof.
  revert t cur. induction cs as [|c cs IH]; intros t cur; [done|]. simpl.
  destruct (node_at t cur) as [[]|]; [done| |done].
  destruct (node_at t (lex_step cur c)) as [[]|]; [done|apply IH|].
  destruct (is_dot c); [done|apply IH].
Qed.

(** Nothing that exists is changed. *)
Lemma mkdir_p_extends (t t' : gmap (list string) Node) cur cs st :
  mkdir_p t cur cs = (st, t') →
  ∀ k n, node_at t k = Some n → node_at t' k = Some n.
Proof.
  revert t cur. induction cs as [|c cs IH]; intros t cur; simpl.
  - by intros [= _ <-].
  - destruct (node_at t cur) as [[]|]; [by intros [= _ <-]| |by intros [= _ <-]].
    destruct (node_at t (lex_step cur c)) as [[]|] eqn:Hnext;
      [by intros [= _ <-]|apply IH|].
    destruct (is_dot c) eqn:Hdot; [by intros [= _ <-]|].
    intros Hrec k n Hk. eapply IH; [done|].
    rewrite lex_step_name in * by done.
    rewrite node_at_insert by apply snoc_not_nil.
    case_decide; [congruence|done].
Qed.

(** What is new is a directory, at a key the names pass through. *)
Lemma mkdir_p_new (t t' : gmap (list string) Node) cur cs st :
  mkdir_p t cur cs = (st, t') →
  ∀ k, node_at t k = None → is_Some (node_at t' k) →
       node_at t' k = Some Dir ∧ k ∈ lex_keys cur cs.
Proof.
  revert t cur. induction cs as [|c cs IH]; intros t cur; simpl.
  - intros [= _ <-] k -> [? ?]. done.
  - destruct (node_at t cur) as [[]|];
      [by intros [= _ <-] k -> [? ?]| |by intros [= _ <-] k -> [? ?]].
    destruct (node_at t (lex_step cur c)) as [[]|] eqn:Hnext;
      [by intros [= _ <-] k -> [? ?]| |].
    { intros Hrec k Hk Hk'. destruct (IH _ _ Hrec k Hk Hk'). split; [done|by right]. }
    destruct (is_dot c) eqn:Hdot; [by intros [= _ <-] k -> [? ?]|].
    intros Hrec k Hk Hk'.
    destruct (decide (k = lex_step cur c)) as [->|Hne].
    + split; [|by left]. eapply mkdir_p_extends; [done|].
      rewrite lex_step_name in * by done.
      rewrite node_at_insert by apply snoc_not_nil. by rewrite decide_True.
    + destruct (IH _ _ Hrec k); [|done|].
      * rewrite lex_step_name in * by done.
        rewrite node_at_insert by apply snoc_not_nil. by rewrite decide_False.
      * split; [done|by right].
Qed.

(** After a run that got through, the names lead to a directory. *)
Lemma mkdir_p_walk (t t' : gmap (list string) Node) cur cs d :
  mkdir_p t cur cs = (inr d, t') → walk t' cur cs = inr d.
Proof.
  revert t cur. induction cs as [|c cs IH]; intros t cur; simpl.
  - by intros [= <- _].
  - destruct (node_at t cur) as [[]|] eqn:Hcur; [done| |done].
    assert (∀ t1, mkdir_p t1 (lex_step cur c) cs = (inr d, t') →
                  (∀ k n, node_at t k = Some n → node_at t1 k = Some n) →
                  match step t' cur c with
                  | inr k => walk t' k cs
                  | inl e => inl e
                  end = inr d) as Hgo.
    { intros t1 Hrec Hext. rewrite (step_lex t' cur c); [by eapply IH|].
      eapply mkdir_p_extends; [done|]. by apply Hext. }
    destruct (node_at t (lex_step cur c)) as [[]|] eqn:Hnext; [done| |].
    + intros Hrec. by apply (Hgo t).
    + destruct (is_dot c) eqn:Hdot; [done|]. intros Hrec. apply (Hgo _ Hrec).
      intros k n Hk. rewrite lex_step_name in * by done.
      rewrite node_at_insert by apply snoc_not_nil.
      case_decide; [congruence|done].
Qed.


(** After a run that was stopped, the names do not lead to a
    directory. *)
Lemma mkdir_p_blocked (t t' : gmap (list string) Node) cur cs e :
  mkdir_p t cur cs = (inl e, t') →
  ∀ d, walk t' cur cs = inr d → node_at t' d ≠ Some Dir.
Proof.
  revert t cur. induction cs as [|c cs IH]; intros t cur; simpl; [done|].
  assert (∀ n, node_at t cur = Some Dir → node_at t (lex_step cur c) = n →
               n ≠ Some Dir →
               ∀ d, match step t cur c with
                    | inr k => walk t k cs
                    | inl e => inl e
                    end = inr d → node_at t d ≠ Some Dir) as Hstop.
  { intros n Hcur Hnext Hn d. rewrite step_lex by done.
    destruct cs as [|c' cs]; simpl.
    - intros [= <-]. congruence.
    - unfold step. rewrite Hnext. by destruct n as [[]|]. }
  assert (∀ t1, mkdir_p t1 (lex_step cur c) cs = (inl e, t') →
                node_at t cur = Some Dir →
                (∀ k n, node_at t k = Some n → node_at t1 k = Some n) →
                ∀ d, match step t' cur c with
                     | inr k => walk t' k cs
                     | inl e => inl e
                     end = inr d → node_at t' d ≠ Some Dir) as Hgo.
  { intros t1 Hrec Hcur Hext d. rewrite (step_lex t' cur c); [by eapply IH|].
    eapply mkdir_p_extends; [done|]. by apply Hext. }
  destruct (node_at t cur) as [[]|] eqn:Hcur.
  - intros [= _ <-] d. unfold step. by rewrite Hcur.
  - destruct (node_at t (lex_step cur c)) as [[]|] eqn:Hnext.
    + intros [= _ <-]. eapply Hstop; [done|reflexivity|done].
    + intros Hrec. by apply (Hgo t).
    + destruct (is_dot c) eqn:Hdot.
      * intros [= _ <-]. eapply Hstop; [done|reflexivity|done].
      * intros Hrec. apply (Hgo _ Hrec); [done|].
        intros k n Hk. rewrite lex_step_name in * by done.
        rewrite node_at_insert by apply snoc_not_nil.
        case_decide; [congruence|done].
  - intros [= _ <-] d. unfold step. by rewrite Hcur.
Qed.

(** Where the names already lead to something, nothing is created. *)
Lemma mkdir_p_exists (t : gmap (list string) Node) cur cs d :
  walk t cur cs = inr d → is_Some (node_at t d) → snd (mkdir_p t cur cs) = t.
Proof.
  revert cur. induction cs as [|c cs IH]; intros cur; simpl; [done|].
  destruct (step t cur c) as [e|k] eqn:Hstep; [done|].
  apply step_inr in Hstep as [Hcur ->]. rewrite Hcur. intros Hwalk Hd.
  destruct cs as [|c' cs].
  - simpl in Hwalk. injection Hwalk as <-.
    destruct Hd as [[] ->]; done.
  - assert (node_at t (lex_step cur c) = Some Dir) as Hnext.
    { simpl in Hwalk. destruct (step t (lex_step cur c) c') eqn:Hs; [done|].
      by apply step_inr in Hs as [? _]. }
    rewrite Hnext. by apply IH.
Qed.

Lemma mkdir_p_isdir (t : gmap (list string) Node) cur cs d :
  walk t cur cs = inr d → node_at t d = Some Dir → mkdir_p t cur cs = (inr d, t).
Proof.
  revert cur. induction cs as [|c cs IH]; intros cur; simpl; [by intros [= ->]|].
  destruct (step t cur c) as [e|k] eqn:Hstep; [done|].
  apply step_inr in Hstep as [Hcur ->]. rewrite Hcur. intros Hwalk Hd.
  assert (node_at t (lex_step cur c) = Some Dir) as Hnext.
  { destruct cs as [|c' cs]; simpl in Hwalk; [by injection Hwalk as ->|].
    destruct (step t (lex_step cur c) c') eqn:Hs; [done|].
    by apply step_inr in Hs as [? _]. }
  rewrite Hnext. by apply IH.
Qed.

(** A second run changes nothing and ends as the first. *)
Lemma mkdir_p_idem (t t' : gmap (list string) Node) cur cs st :
  mkdir_p t cur cs = (st, t') → mkdir_p t' cur cs = (st, t').
Proof.
  revert t cur. induction cs as [|c cs IH]; intros t cur; simpl.
  - by intros [= <- <-].
  - destruct (node_at t cur) as [[]|] eqn:Hcur.
    + intros [= <- <-]. by rewrite Hcur.
    + destruct (node_at t (lex_step cur c)) as [[]|] eqn:Hnext.
      * intros [= <- <-]. by rewrite Hcur, Hnext.
      * intros Hrec. rewrite (mkdir_p_extends _ _ _ _ _ Hrec _ _ Hcur).
        rewrite (mkdir_p_extends _ _ _ _ _ Hrec _ _ Hnext). by eapply IH.
      * destruct (is_dot c) eqn:Hdot.
        -- intros [= <- <-]. by rewrite Hcur, Hnext.
        -- intros Hrec. rewrite lex_step_name in * by done.
           assert (node_at t' cur = Some Dir) as ->.
           { eapply mkdir_p_extends; [done|].
             rewrite node_at_insert by apply snoc_not_nil.
             case_decide; [congruence|done]. }
           assert (node_at t' (cur ++ [c]) = Some Dir) as ->.
           { eapply mkdir_p_extends; [done|].
             rewrite node_at_insert by apply snoc_not_nil. by rewrite decide_True. }
           by eapply IH.
    + intros [= <- <-]. by rewrite Hcur.
Qed.


(** ** [os.makedirs] creates if absent, name by name *)

Lemma set_tree_id w : set_tree w (tree w) = w.
Proof. by destruct w. Qed.

Lemma components_nil_abs name :
  str_empty name = false → components name = [] → is_abs name = true.
Proof.
  destruct name as [|c s]; [done|]. intros _. rewrite components_cons. simpl.
  destruct (is_slash c); [done|].
  destruct (is_abs s || str_empty s); [done|]. by destruct (components s).
Qed.

Lemma trailing_slash_snoc h : trailing_slash (h +:+ String slash EmptyString) = true.
Proof.
  induction h as [|c h IH]; [done|]. rewrite append_cons.
  destruct h as [|c' h]; [done|]. rewrite append_cons in *. done.
Qed.

Lemma posix_split_tail_empty p head :
  posix_split p = (head, EmptyString) → str_empty p = false → trailing_slash p = true.
Proof.
  unfold posix_split. destruct (split_last p) as [h t] eqn:Hsplit.
  intros [= _ ->] Hp. apply split_last_spec in Hsplit as (-> & _ & [->|[h' ->]]); [done|].
  rewrite app_nil_r_str. apply trailing_slash_snoc.
Qed.

Lemma stat_stripped w name :
  str_empty name = false → stripped name →
  stat w name =
    match walk (tree w) (start_dir w name) (components name) with
    | inr k => match node_at (tree w) k with
               | Some n => inr n
               | None => inl ENOENT
               end
    | inl e => inl e
    end.
Proof.
  intros Hne Hstripped. unfold stat, namei. rewrite Hne.
  destruct (trailing_slash name) eqn:Hts; [|by rewrite app_nil_r].
  destruct Hstripped as [?|Hnil]; [congruence|]. rewrite Hnil.
  unfold start_dir. by rewrite (components_nil_abs _ Hne Hnil).
Qed.

Lemma sys_mkdir_root w name :
  str_empty name = false → components name = [] → sys_mkdir w name = inl EEXIST.
Proof. intros Hne Hnil. unfold sys_mkdir, parent_of. by rewrite Hne, Hnil. Qed.

Lemma sys_mkdir_spec w name init tail :
  str_empty name = false → components name = init ++ [tail] →
  sys_mkdir w name =
    match walk (tree w) (start_dir w name) init with
    | inr d =>
        match node_at (tree w) d with
        | Some Dir =>
            if is_dot tail then inl EEXIST
            else match node_at (tree w) (d ++ [tail]) with
                 | Some _ => inl EEXIST
                 | None => inr (set_tree w (<[d ++ [tail] := Dir]> (tree w)))
                 end
        | Some (File _) => inl ENOTDIR
        | None => inl ENOENT
        end
    | inl e => inl e
    end.
Proof.
  intros Hne Hc. unfold sys_mkdir, parent_of. rewrite Hne, Hc, rev_unit, rev_involutive.
  destruct (walk _ _ init) as [e|d]; [done|].
  by destruct (node_at (tree w) d) as [[]|].
Qed.

Lemma mkdir_leaf_unfold name w :
  mkdir_leaf name true w =
    match sys_mkdir w name with
    | inr w' => (Ok (), w')
    | inl e => if path_isdir name w then (Ok (), w) else (Raise (os_error e name), w)
    end.
Proof.
  unfold mkdir_leaf, try_except, os_mkdir, syscall.
  destruct (sys_mkdir w name) as [e|w']; [|done]. simpl.
  unfold bind, os_path_isdir. by destruct (path_isdir name w).
Qed.

Lemma mkdir_leaf_root name w :
  str_empty name = false → components name = [] → mkdir_leaf name true w = (Ok (), w).
Proof.
  intros Hne Hnil. rewrite mkdir_leaf_unfold, sys_mkdir_root by done.
  unfold path_isdir. rewrite stat_stripped by (done || by right).
  rewrite Hnil. unfold start_dir. by rewrite (components_nil_abs _ Hne Hnil).
Qed.

Lemma path_isdir_walk w name :
  str_empty name = false → stripped name →
  path_isdir name w =
    match walk (tree w) (start_dir w name) (components name) with
    | inr k => is_dir (node_at (tree w) k)
    | inl _ => false
    end.
Proof.
  intros Hne Hs. unfold path_isdir. rewrite stat_stripped by done.
  destruct (walk _ _ _) as [e|k]; [done|].
  by destruct (node_at (tree w) k) as [[]|].
Qed.

(** The last name, once the names before it are in place. *)
Lemma mkdir_leaf_spec w name init tail st1 :
  str_empty name = false → stripped name → components name = init ++ [tail] →
  mkdir_p (tree w) (start_dir w name) init = (st1, tree w) →
  ∃ r, mkdir_leaf name true w =
         (r, set_tree w (snd (mkdir_p (tree w) (start_dir w name) (init ++ [tail])))) ∧
       (∀ d t', mkdir_p (tree w) (start_dir w name) (init ++ [tail]) = (inr d, t') →
                r = Ok ()).
Proof.
  intros Hne Hstripped Hc Hinit.
  rewrite mkdir_leaf_unfold, (sys_mkdir_spec _ _ _ _ Hne Hc).
  rewrite path_isdir_walk, Hc, walk_app by done.
  rewrite mkdir_p_app, Hinit.
  destruct st1 as [e|d].
  - pose proof (mkdir_p_blocked _ _ _ _ _ Hinit) as Hblocked.
    simpl snd. rewrite set_tree_id.
    destruct (walk (tree w) (start_dir w name) init) as [e'|d] eqn:Hwalk.
    + eexists. split; [reflexivity|done].
    + specialize (Hblocked d eq_refl). simpl walk. unfold step.
      destruct (node_at (tree w) d) as [[]|]; [|done|]; (eexists; split; [reflexivity|done]).
  - rewrite (mkdir_p_walk _ _ _ _ _ Hinit). simpl walk. simpl mkdir_p. unfold step.
    destruct (node_at (tree w) d) as [[]|] eqn:Hd;
      [simpl snd; rewrite set_tree_id; eexists; split; [reflexivity|done]|
      |simpl snd; rewrite set_tree_id; eexists; split; [reflexivity|done]].
    fold (lex_step d tail).
    destruct (is_dot tail) eqn:Hdot.
    + destruct (node_at (tree w) (lex_step d tail)) as [[]|] eqn:Hnext;
        simpl snd; rewrite set_tree_id; simpl;
        (eexists; split; [reflexivity|done]).
    + rewrite lex_step_name by done.
      destruct (node_at (tree w) (d ++ [tail])) as [[]|] eqn:Hnext;
        simpl snd; rewrite ?set_tree_id; simpl;
        (eexists; split; [reflexivity|done]).
Qed.

Lemma os_makedirs_fuel_S n name w :
  os_makedirs_fuel (S n) name true w =
    let '(head, tail) := posix_split name in
    let '(head, tail) := if str_empty tail then posix_split head else (head, tail) in
    if negb (str_empty head) && negb (str_empty tail) && negb (path_exists head w)
    then match os_makedirs_fuel n head true w with
         | (Raise e, w1) =>
             if is_FileExistsError (exc_class e)
             then (if bool_decide (tail = ".") then (Ok (), w1) else mkdir_leaf name true w1)
             else (Raise e, w1)
         | (Ok _, w1) =>
             if bool_decide (tail = ".") then (Ok (), w1) else mkdir_leaf name true w1
         end
    else mkdir_leaf name true w.
Proof.
  cbn [os_makedirs_fuel]. destruct (posix_split name) as [head0 tail0].
  destruct (if str_empty tail0 then posix_split head0 else (head0, tail0)) as [head tail].
  unfold bind at 1.
  destruct (negb (str_empty head) && negb (str_empty tail)); simpl.
  - unfold bind at 1. unfold os_path_exists, ret.
    destruct (path_exists head w); simpl; [done|].
    unfold bind, try_except.
    destruct (os_makedirs_fuel n head true w) as [[[]|e] w1].
    + by case_bool_decide.
    + destruct (is_FileExistsError (exc_class e)); [|done]. by case_bool_decide.
  - done.
Qed.

(** More calls than [name] has characters make no difference: the
    recursion is on a shorter name each time. *)
Lemma os_makedirs_fuel_enough n m name w :
  String.length name < n → String.length name < m →
  os_makedirs_fuel n name true w = os_makedirs_fuel m name true w.
Proof.
  revert m name w. induction n as [|n IH]; intros [|m] name w Hn Hm; [lia..|].
  rewrite !os_makedirs_fuel_S.
  destruct (posix_split name) as [head0 tail0] eqn:Hsplit.
  destruct (posix_split_spec _ _ _ Hsplit) as (_ & _ & _ & _ & _ & Hlen).
  assert (∀ head tail,
    (if str_empty tail0 then posix_split head0 else (head0, tail0)) = (head, tail) →
    str_empty tail = false → String.length head < String.length name) as Hshorter.
  { intros head tail Heq Htail. destruct (str_empty tail0).
    - destruct (posix_split_spec _ _ _ Heq) as (_ & _ & _ & _ & _ & Hlen0).
      destruct tail; [done|]. simpl in Hlen0. lia.
    - injection Heq as -> ->. destruct tail; [done|]. simpl in Hlen. lia. }
  destruct (if str_empty tail0 then posix_split head0 else (head0, tail0))
    as [head tail] eqn:Heq.
  destruct (str_empty tail) eqn:Htail; [by rewrite andb_false_r|].
  specialize (Hshorter _ _ eq_refl Htail).
  by rewrite (IH m head w) by lia.
Qed.


(** The store [os.makedirs] leaves is the one [mkdir_p] computes, and
    it returns where [mkdir_p] gets through. *)
Lemma os_makedirs_fuel_spec n name w :
  String.length name < n → str_empty name = false → stripped name →
  ∃ r, os_makedirs_fuel n name true w =
         (r, set_tree w (snd (mkdir_p (tree w) (start_dir w name) (components name)))) ∧
       (∀ d t', mkdir_p (tree w) (start_dir w name) (components name) = (inr d, t') →
                r = Ok ()).
Proof.
  revert name w. induction n as [|n IH]; intros name w Hlen Hne Hstripped; [lia|].
  rewrite os_makedirs_fuel_S.
  destruct (posix_split name) as [head0 tail0] eqn:Hsplit.
  destruct (posix_split_spec _ _ _ Hsplit) as (_ & Hc & Hrel & Habs & Hhead & Hlen').
  destruct (str_empty tail0) eqn:Htail0.
  - (* [name] is slashes only *)
    apply str_empty_true in Htail0 as ->.
    pose proof (posix_split_tail_empty _ _ Hsplit Hne) as Hts.
    destruct Hstripped as [?|Hnil]; [congruence|].
    destruct (posix_split head0) as [head tail] eqn:Hsplit0.
    destruct (posix_split_spec _ _ _ Hsplit0) as (_ & Hc0 & _).
    assert (str_empty tail = true) as ->.
    { rewrite Hnil, app_nil_r in Hc. rewrite <-Hc in Hc0.
      destruct (str_empty tail); [done|]. by destruct (components head). }
    rewrite andb_false_r. simpl. rewrite mkdir_leaf_root by done.
    rewrite Hnil. simpl. rewrite set_tree_id. by eexists.
  - (* [name] ends in the name [tail0] *)
    assert (start_dir w head0 = start_dir w name ∨ str_empty head0 = true) as Hstart.
    { destruct (str_empty head0) eqn:Hh; [by right|]. left.
      unfold start_dir. by rewrite Habs. }
    rewrite Hc, ?Htail0.
    destruct (negb (str_empty head0) && negb false && negb (path_exists head0 w)) eqn:Hmissing.
    + (* the parents are missing *)
      apply andb_true_iff in Hmissing as [[Hh0%negb_true_iff _]%andb_true_iff _].
      destruct Hstart as [Hstart|?]; [|congruence].
      destruct (IH head0 w) as (r1 & Hrec & Hok1); [|done..|].
      { destruct tail0; [done|]. simpl in Hlen'. lia. }
      rewrite Hrec, Hstart in *.
      destruct (mkdir_p (tree w) (start_dir w name) (components head0)) as [st1 t1] eqn:Hinit.
      simpl snd in *.
      assert (∀ r0,
        (if bool_decide (tail0 = ".") then (Ok (), set_tree w t1)
         else mkdir_leaf name true (set_tree w t1)) = r0 →
        ∃ r, r0 = (r, set_tree w (snd (mkdir_p (tree w) (start_dir w name)
                                          (components head0 ++ [tail0])))) ∧
             (∀ d t', mkdir_p (tree w) (start_dir w name) (components head0 ++ [tail0])
                        = (inr d, t') → r = Ok ())) as Hrest.
      { intros r0 <-. case_bool_decide as Hdot.
        - subst tail0. exists (Ok ()). split; [|done]. f_equal. f_equal.
          rewrite mkdir_p_app, Hinit. destruct st1 as [e|d]; [done|]. simpl.
          destruct (node_at t1 d) as [[]|] eqn:Hd; [done| |done].
          unfold lex_step. simpl. by rewrite Hd.
        - pose proof (mkdir_p_idem _ _ _ _ _ Hinit) as Hidem.
          destruct (mkdir_leaf_spec (set_tree w t1) name (components head0) tail0 st1)
            as (r & Hleaf & Hok); [done..|].
          rewrite Hleaf. exists r.
          change (start_dir (set_tree w t1) name) with (start_dir w name) in *.
          change (tree (set_tree w t1)) with t1 in *.
          assert (mkdir_p t1 (start_dir w name) (components head0 ++ [tail0]) =
                  mkdir_p (tree w) (start_dir w name) (components head0 ++ [tail0])) as Heq.
          { by rewrite !mkdir_p_app, Hinit, Hidem. }
          rewrite Heq in *. done. }
      destruct r1 as [[]|e].
      * by apply Hrest.
      * destruct (is_FileExistsError (exc_class e)); [by apply Hrest|].
        exists (Raise e). rewrite mkdir_p_app, Hinit.
        destruct st1 as [e'|d]; [done|]. by specialize (Hok1 d t1 eq_refl).
    + (* the parents are there, or there are none *)
      assert (∃ st1, mkdir_p (tree w) (start_dir w name) (components head0) = (st1, tree w))
        as [st1 Hinit].
      { destruct (str_empty head0) eqn:Hh0.
        - apply str_empty_true in Hh0 as ->. by eexists.
        - destruct Hstart as [Hstart|?]; [|congruence].
          simpl in Hmissing. apply negb_false_iff in Hmissing.
          unfold path_exists in Hmissing.
          rewrite stat_stripped, Hstart in Hmissing by done.
          destruct (walk (tree w) (start_dir w name) (components head0)) as [|d] eqn:Hwalk;
            [done|].
          destruct (node_at (tree w) d) as [nd|] eqn:Hd; [|done].
          pose proof (mkdir_p_exists _ _ _ _ Hwalk) as Hsame.
          rewrite Hd in Hsame. specialize (Hsame ltac:(by eexists)).
          destruct (mkdir_p (tree w) (start_dir w name) (components head0)) as [st1 t1].
          simpl in Hsame. subst t1. by eexists. }
      by apply (mkdir_leaf_spec w name (components head0) tail0 st1).
Qed.

(** With fewer calls allowed, the recursion either runs out, and
    nothing has been created by then, or goes as with any number. *)
Lemma os_makedirs_fuel_limit n name w :
  os_makedirs_fuel n name true w = (Raise recursion_error, w) ∨
  os_makedirs_fuel n name true w = os_makedirs_fuel (S (String.length name)) name true w.
Proof.
  revert name w. induction n as [|n IH]; intros name w; [by left|].
  rewrite !os_makedirs_fuel_S.
  destruct (posix_split name) as [head0 tail0] eqn:Hsplit.
  destruct (posix_split_spec _ _ _ Hsplit) as (_ & _ & _ & _ & _ & Hlen).
  assert (∀ head tail,
    (if str_empty tail0 then posix_split head0 else (head0, tail0)) = (head, tail) →
    str_empty tail = false → String.length head < String.length name) as Hshorter.
  { intros head tail Heq Htail. destruct (str_empty tail0).
    - destruct (posix_split_spec _ _ _ Heq) as (_ & _ & _ & _ & _ & Hlen0).
      destruct tail; [done|]. simpl in Hlen0. lia.
    - injection Heq as -> ->. destruct tail; [done|]. simpl in Hlen. lia. }
  destruct (if str_empty tail0 then posix_split head0 else (head0, tail0))
    as [head tail] eqn:Heq.
  destruct (str_empty tail) eqn:Htail; [rewrite andb_false_r; by right|].
  specialize (Hshorter _ _ eq_refl Htail).
  destruct (negb (str_empty head) && negb false && negb (path_exists head w)); [|by right].
  rewrite (os_makedirs_fuel_enough (String.length name) (S (String.length head)) head w)
    by lia.
  destruct (IH head w) as [-> | ->]; [by left|by right].
Qed.


(** Where [name] is a directory, one call will do. *)
Lemma os_makedirs_fuel_isdir n name w :
  str_empty name = false → stripped name → path_isdir name w = true →
  os_makedirs_fuel (S n) name true w =
    os_makedirs_fuel (S (String.length name)) name true w.
Proof.
  intros Hne Hstripped Hisdir. rewrite !os_makedirs_fuel_S.
  destruct (posix_split name) as [head0 tail0] eqn:Hsplit.
  destruct (posix_split_spec _ _ _ Hsplit) as (_ & Hc & _ & Habs & Hhead & _).
  rewrite path_isdir_walk in Hisdir by done.
  destruct (walk (tree w) (start_dir w name) (components name)) as [|k] eqn:Hwalk; [done|].
  destruct (str_empty tail0) eqn:Htail0.
  - apply str_empty_true in Htail0 as ->.
    pose proof (posix_split_tail_empty _ _ Hsplit Hne) as Hts.
    destruct Hstripped as [?|Hnil]; [congruence|].
    destruct (posix_split head0) as [head tail] eqn:Hsplit0.
    destruct (posix_split_spec _ _ _ Hsplit0) as (_ & Hc0 & _).
    assert (str_empty tail = true) as ->.
    { rewrite Hnil, app_nil_r in Hc. rewrite <-Hc in Hc0.
      destruct (str_empty tail); [done|]. by destruct (components head). }
    by rewrite andb_false_r.
  - destruct (str_empty head0) eqn:Hh0; [done|].
    assert (path_exists head0 w = true) as ->; [|by rewrite andb_false_r].
    rewrite Hc, walk_app in Hwalk.
    destruct (walk (tree w) (start_dir w name) (components head0)) as [|d] eqn:Hwalk0;
      [done|].
    simpl in Hwalk. destruct (step (tree w) d tail0) as [|k'] eqn:Hstep; [done|].
    apply step_inr in Hstep as [Hd _].
    unfold path_exists. rewrite stat_stripped by done.
    unfold start_dir in *. rewrite (Habs eq_refl), Hwalk0, Hd. done.
Qed.

Lemma dirname_stripped path : stripped (dirname path).
Proof.
  unfold dirname. destruct (posix_split path) as [head tail] eqn:Hsplit.
  by destruct (posix_split_spec _ _ _ Hsplit) as (_ & _ & _ & _ & ? & _).
Qed.

Lemma LocalFileMixin_makedirs_unfold path w :
  str_empty (dirname path) = false →
  LocalFileMixin_makedirs path w = os_makedirs_fuel recursion_limit (dirname path) true w.
Proof. intros Hne. unfold LocalFileMixin_makedirs, os_makedirs. by rewrite Hne. Qed.

Lemma LocalFileMixin_makedirs_spec path w :
  str_empty (dirname path) = false →
  LocalFileMixin_makedirs path w = (Raise recursion_error, w) ∨
  makedirs_as_mkdir_p path w.
Proof.
  intros Hne. unfold makedirs_as_mkdir_p.
  rewrite LocalFileMixin_makedirs_unfold by done.
  destruct (os_makedirs_fuel_limit recursion_limit (dirname path) w) as [->| ->];
    [by left|right].
  apply os_makedirs_fuel_spec; [lia | done | apply dirname_stripped].
Qed.


Lemma LocalFileMixin_makedirs_isdir path w :
  0 < recursion_limit → path_isdir (dirname path) w = true →
  LocalFileMixin_makedirs path w = (Ok (), w).
Proof.
  intros Hlimit Hisdir.
  destruct (str_empty (dirname path)) eqn:Hne.
  { unfold LocalFileMixin_makedirs. by rewrite Hne. }
  rewrite LocalFileMixin_makedirs_unfold by done.
  destruct recursion_limit as [|n]; [lia|].
  rewrite os_makedirs_fuel_isdir by (done || apply dirname_stripped).
  destruct (os_makedirs_fuel_spec (S (String.length (dirname path))) (dirname path) w)
    as (r & Hrun & Hok); [lia | done | apply dirname_stripped|].
  rewrite path_isdir_walk in Hisdir by (done || apply dirname_stripped).
  destruct (walk (tree w) (start_dir w (dirname path)) (components (dirname path)))
    as [|d] eqn:Hwalk; [done|].
  destruct (node_at (tree w) d) as [[]|] eqn:Hd; [done| |done].
  rewrite (mkdir_p_isdir _ _ _ _ Hwalk Hd) in Hrun, Hok.
  rewrite Hrun, (Hok _ _ eq_refl). simpl. by rewrite set_tree_id.
Qed.

Lemma start_dir_dir w p : well_formed w → node_at (tree w) (start_dir w p) = Some Dir.
Proof. intros [Hcwd _]. unfold start_dir. by destruct (is_abs p). Qed.




(** ** The existence check *)






(** ** The store under [makedirs] and under a write *)

Lemma store_unfold path c w :
  store path c w =
    match LocalFileMixin_makedirs path w with
    | (Ok _, w1) =>
        match sys_write w1 path c with
        | inr w2 => (Ok (), w2)
        | inl e => (Raise (os_error e path), w1)
        end
    | (Raise e, w1) => (Raise e, w1)
    end.
Proof.
  unfold store, bind, write_file, syscall.
  by destruct (LocalFileMixin_makedirs path w) as [[[]|e] w1].
Qed.

Lemma PandasCSV_save_store path df : PandasCSV_save path df = store path (csv_of df).
Proof. reflexivity. Qed.

(** Opening a file for writing and then writing to it leaves what
    one write leaves. *)
Lemma sys_creat_write w p :
  match sys_creat w p with
  | inr (k, w1) =>
      w1 = set_tree w (<[k := File EmptyFile]> (tree w)) ∧
      ∀ c, sys_write w p c = inr (set_tree w (<[k := File c]> (tree w)))
  | inl e => ∀ c, sys_write w p c = inl e
  end.
Proof.
  unfold sys_creat, sys_write. destruct (parent_of w p) as [[]|[d last]]; try done.
  destruct (is_dot last || trailing_slash p); [done|].
  by destruct (node_at (tree w) (d ++ [last])) as [[]|].
Qed.

(** The [save] of [Pickle]: with an object that can be pickled, the
    two lines the kinds share; with one that cannot, the error of
    [pickle.dump], and the file is left open and empty. *)
Lemma Pickle_save_unfold path obj w :
  Pickle_save path obj w =
    match pickle_dumps obj with
    | Ok stream => store path (PickleStream stream) w
    | Raise e =>
        match store path EmptyFile w with
        | (Ok _, w1) => (Raise e, w1)
        | (Raise e', w1) => (Raise e', w1)
        end
    end.
Proof.
  unfold Pickle_save, bind, open_wb, lift, write_open.
  destruct (pickle_dumps obj) as [stream|e0]; rewrite store_unfold;
    (destruct (LocalFileMixin_makedirs path w) as [[[]|e] wm]; [|done]);
    pose proof (sys_creat_write wm path) as Hcreat;
    (destruct (sys_creat wm path) as [e|[k w1]];
     [by rewrite Hcreat|destruct Hcreat as [-> Hwrite]; rewrite Hwrite]).
  - unfold set_tree. simpl. by rewrite insert_insert_eq.
  - done.
Qed.

Lemma Pickle_save_state path obj w :
  ∃ c, snd (Pickle_save path obj w) = snd (store path c w).
Proof.
  rewrite Pickle_save_unfold. destruct (pickle_dumps obj) as [stream|e]; [by eexists|].
  exists EmptyFile. by destruct (store path EmptyFile w) as [[[]|?] ?].
Qed.

Lemma Pickle_save_Ok path obj w w' :
  Pickle_save path obj w = (Ok (), w') →
  ∃ stream, pickle_dumps obj = Ok stream ∧ store path (PickleStream stream) w = (Ok (), w').
Proof.
  rewrite Pickle_save_unfold. destruct (pickle_dumps obj) as [stream|e]; [by eexists|].
  by destruct (store path EmptyFile w) as [[[]|?] ?].
Qed.

(** Whatever [makedirs] returns, it leaves every node in place. *)
Lemma makedirs_extends path w :
  cwd (snd (LocalFileMixin_makedirs path w)) = cwd w ∧
  ∀ k n, node_at (tree w) k = Some n →
         node_at (tree (snd (LocalFileMixin_makedirs path w))) k = Some n.
Proof.
  destruct (str_empty (dirname path)) eqn:Hne.
  - unfold LocalFileMixin_makedirs. by rewrite Hne.
  - destruct (LocalFileMixin_makedirs_spec path w Hne) as [->|(r & -> & _)]; [done|].
    simpl. split; [done|].
    destruct (mkdir_p (tree w) (start_dir w (dirname path)) (components (dirname path)))
      as [st t'] eqn:Hrun.
    intros k n. by eapply mkdir_p_extends.
Qed.

Lemma makedirs_new path w k :
  node_at (tree w) k = None →
  is_Some (node_at (tree (snd (LocalFileMixin_makedirs path w))) k) →
  node_at (tree (snd (LocalFileMixin_makedirs path w))) k = Some Dir ∧
  k ∈ ancestors w path.
Proof.
  destruct (str_empty (dirname path)) eqn:Hne.
  - unfold LocalFileMixin_makedirs. rewrite Hne. simpl. by intros -> [? ?].
  - destruct (LocalFileMixin_makedirs_spec path w Hne) as [->|(r & -> & _)].
    { simpl. by intros -> [? ?]. }
    simpl.
    destruct (mkdir_p (tree w) (start_dir w (dirname path)) (components (dirname path)))
      as [st t'] eqn:Hrun.
    by eapply mkdir_p_new.
Qed.

(** Where the directory part is there already, or there is none,
    [makedirs] returns and changes nothing. *)
Lemma makedirs_there path w :
  str_empty (dirname path) = true ∨ 0 < recursion_limit →
  str_empty (dirname path) = true ∨ path_isdir (dirname path) w = true →
  LocalFileMixin_makedirs path w = (Ok (), w).
Proof.
  destruct (str_empty (dirname path)) eqn:Hne.
  { intros _ _. unfold LocalFileMixin_makedirs. by rewrite Hne. }
  intros [?|Hlimit] [?|Hisdir]; [done..|].
  by apply LocalFileMixin_makedirs_isdir.
Qed.

(** A call that returned was allowed. *)
Lemma makedirs_Ok_limit path w w1 :
  LocalFileMixin_makedirs path w = (Ok (), w1) →
  str_empty (dirname path) = true ∨ 0 < recursion_limit.
Proof.
  intros Hrun. destruct (str_empty (dirname path)) eqn:Hne; [by left|right].
  rewrite LocalFileMixin_makedirs_unfold in Hrun by done.
  destruct recursion_limit; [done|lia].
Qed.

Lemma has_slash_is_abs s : has_slash s = false → is_abs s = false.
Proof. destruct s as [|c s]; [done|]. simpl. by intros [? _]%orb_false_iff. Qed.

(** A path that names a file: its names are those of its directory
    part and its base name. *)
Lemma path_components w path :
  str_empty path = false → trailing_slash path = false →
  str_empty (basename path) = false ∧
  components path = components (dirname path) ++ [basename path] ∧
  start_dir w (dirname path) = start_dir w path.
Proof.
  intros Hne Hts. unfold basename, dirname.
  destruct (posix_split path) as [dirs tail] eqn:Hsplit. simpl.
  destruct (posix_split_spec _ _ _ Hsplit) as (Hslash & Hc & Hrel & Habs & _).
  assert (str_empty tail = false) as Htail.
  { destruct (str_empty tail) eqn:Htail; [|done].
    apply str_empty_true in Htail as ->.
    pose proof (posix_split_tail_empty _ _ Hsplit Hne). congruence. }
  rewrite Htail in Hc. split_and!; [done..|].
  unfold start_dir. destruct (str_empty dirs) eqn:Hdirs.
  - apply str_empty_true in Hdirs as ->. rewrite (Hrel eq_refl). simpl.
    by rewrite has_slash_is_abs.
  - by rewrite Habs.
Qed.

Lemma sys_write_inr_dirname w path c w' :
  sys_write w path c = inr w' →
  str_empty path = false ∧ trailing_slash path = false ∧
  is_dot (basename path) = false ∧
  ∃ d, walk (tree w) (start_dir w path) (components (dirname path)) = inr d ∧
       node_at (tree w) d = Some Dir ∧
       parent_of w path = inr (d, basename path) ∧
       node_at (tree w) (d ++ [basename path]) ≠ Some Dir ∧
       w' = set_tree w (<[d ++ [basename path] := File c]> (tree w)).
Proof.
  intros (d & last & Hp & Hdot & Hslash & Hn & ->)%sys_write_inr.
  destruct (parent_of_inr _ _ _ _ Hp) as (Hne & init & Hc & Hwalk & Hd).
  destruct (path_components w path Hne Hslash) as (_ & Hc' & _).
  rewrite Hc' in Hc. apply app_inj_tail in Hc as [-> ->].
  split_and!; [done..|]. by exists d.
Qed.

Lemma path_isdir_dirname w path d :
  str_empty path = false → trailing_slash path = false →
  walk (tree w) (start_dir w path) (components (dirname path)) = inr d →
  node_at (tree w) d = Some Dir →
  str_empty (dirname path) = true ∨ path_isdir (dirname path) w = true.
Proof.
  intros Hne Hslash Hwalk Hd.
  destruct (str_empty (dirname path)) eqn:Hdirs; [by left|right].
  destruct (path_components w path Hne Hslash) as (_ & _ & Hstart).
  rewrite path_isdir_walk by (done || apply dirname_stripped).
  by rewrite Hstart, Hwalk, Hd.
Qed.

(** After the two lines have gone through, the file is there, and
    they go through again with any content. *)
Lemma store_again path c w w1 :
  store path c w = (Ok (), w1) →
  ∃ k, node_at (tree w1) k = Some (File c) ∧
       sys_read w1 path = inr c ∧
       path_isfile path w1 = true ∧
       ∀ c2, store path c2 w1 = (Ok (), set_tree w1 (<[k := File c2]> (tree w1))).
Proof.
  rewrite store_unfold.
  destruct (LocalFileMixin_makedirs path w) as [[[]|e] wm] eqn:Hmk; [|done].
  apply makedirs_Ok_limit in Hmk as Hlimit.
  destruct (sys_write wm path c) as [e|w2] eqn:Hwrite; [done|]. intros [= ->].
  pose proof (sys_read_after_write _ _ _ _ Hwrite) as Hread.
  pose proof (sys_write_isfile _ _ _ _ Hwrite) as Hisfile.
  destruct (sys_write_inr_dirname _ _ _ _ Hwrite)
    as (Hne & Hslash & Hdot & d & Hwalk & Hd & Hp & Hn & ->).
  set (k := d ++ [basename path]) in *.
  assert (k ≠ []) as Hk by apply snoc_not_nil.
  assert (keeps_dirs (tree wm) (<[k := File c]> (tree wm))) as Hkeep
    by by apply keeps_dirs_insert.
  assert (node_at (<[k := File c]> (tree wm)) k = Some (File c)) as Hfile.
  { rewrite node_at_insert by done. by rewrite decide_True. }
  exists k. split_and!; [done..|]. intros c2.
  rewrite store_unfold, makedirs_there.
  - unfold sys_write. rewrite (parent_of_keeps_dirs _ _ _ _ _ Hkeep Hp), Hdot, Hslash.
    simpl. fold k. by rewrite Hfile.
  - done.
  - apply (path_isdir_dirname _ _ d); [done..| |by apply Hkeep].
    by apply (walk_keeps_dirs _ _ _ _ _ Hkeep).
Qed.

Lemma store_same path c w w1 :
  store path c w = (Ok (), w1) → store path c w1 = (Ok (), w1).
Proof.
  intros (k & Hk & _ & _ & Hagain)%store_again. rewrite Hagain. f_equal.
  destruct w1 as [cw t]. unfold set_tree. simpl in *. f_equal.
  apply insert_id. by destruct k.
Qed.

Lemma keeps_entries_refl w : keeps_entries w w.
Proof. split; [done|]. by intros k. Qed.

Lemma store_keeps_entries path c w : keeps_entries w (snd (store path c w)).
Proof.
  destruct (makedirs_extends path w) as [Hcwd Hext].
  assert (keeps_entries w (snd (LocalFileMixin_makedirs path w))) as Hmk.
  { split; [done|]. intros k. split; [apply Hext|].
    destruct (node_at (tree w) k) as [[c0|]|] eqn:Hk; [|done..].
    intros _. by rewrite (Hext _ _ Hk). }
  rewrite store_unfold.
  destruct (LocalFileMixin_makedirs path w) as [[[]|e] wm]; [|done].
  destruct (sys_write wm path c) as [e|w2] eqn:Hwrite; [done|].
  destruct (sys_write_inr _ _ _ _ Hwrite) as (d & last & _ & _ & _ & Hn & ->).
  simpl in *. destruct Hmk as [_ Hmk]. split; [done|]. intros k.
  destruct (Hmk k) as [Hdir Hfile]. simpl.
  rewrite node_at_insert by apply snoc_not_nil. split.
  - intros Hk. case_decide as Heq; [|by apply Hdir].
    subst k. by specialize (Hdir Hk).
  - intros Hk. case_decide; [done|by apply Hfile].
Qed.

(** A save of the local-file kinds never removes anything and never
    puts a file where a directory is: whether it returns or raises,
    every directory is still a directory afterwards and every regular
    file still a regular file. *)
Theorem save_keeps_entries (name loc : option string) (context : gmap string string)
    (w : World) :
  (∀ (columns : option (list string)) (supplied : list (DataFrame → Result unit))
     (df : DataFrame),
     keeps_entries w (snd (_save (PandasCSV name loc columns supplied) df context w))) ∧
  (∀ (supplied : list (Obj → Result unit)) (obj : Obj),
     keeps_entries w (snd (_save (Pickle name loc supplied) obj context w))).
Proof.
  split.
  - intros columns supplied df. rewrite _save_unfold.
    destruct (assert_integrity _ df); [|apply keeps_entries_refl].
    destruct (loc_format _ context) as [path|]; [|apply keeps_entries_refl].
    apply (store_keeps_entries path (csv_of df)).
  - intros supplied obj. rewrite _save_unfold.
    destruct (assert_integrity _ obj); [|apply keeps_entries_refl].
    destruct (loc_format _ context) as [path|]; [|apply keeps_entries_refl].
    change (save (Pickle name loc supplied) path obj) with (Pickle_save path obj).
    destruct (Pickle_save_state path obj w) as [c ->].
    apply (store_keeps_entries path c).
Qed.

(** ** Well-formed stores stay well-formed *)

Lemma tree_wf_insert (t : gmap (list string) Node) (d : list string) (c : string) (n : Node) :
  tree_wf t → node_at t d = Some Dir → node_at t (d ++ [c]) ≠ Some Dir →
  tree_wf (<[d ++ [c] := n]> t).
Proof.
  intros Hwf Hd Hn k x [m Hm].
  rewrite node_at_insert by apply snoc_not_nil.
  destruct (decide (k ++ [x] = d ++ [c])) as [Heq|Hne].
  - apply app_inj_tail in Heq as [-> _].
    case_decide as Hk; [by rewrite Hk in Hd|done].
  - rewrite lookup_insert_ne in Hm by done.
    assert (node_at t k = Some Dir) as Hdir by (apply (Hwf k x); by eexists).
    case_decide as Hk; [by rewrite Hk in Hdir|done].
Qed.

Lemma tree_wf_delete (t : gmap (list string) Node) (k : list string) :
  tree_wf t → node_at t k ≠ Some Dir → k ≠ [] → tree_wf (delete k t).
Proof.
  intros Hwf Hn Hk k' x [m Hm].
  rewrite node_at_delete by done.
  assert (node_at t k' = Some Dir) as Hdir.
  { apply (Hwf k' x). exists m. by apply lookup_delete_Some in Hm as [_ ?]. }
  case_decide as Heq; [by rewrite Heq in Hdir|done].
Qed.

Lemma mkdir_p_wf (t t' : gmap (list string) Node) cur cs st :
  tree_wf t → mkdir_p t cur cs = (st, t') → tree_wf t'.
Proof.
  revert t cur. induction cs as [|c cs IH]; intros t cur Hwf; simpl.
  - by intros [= _ <-].
  - destruct (node_at t cur) as [[]|] eqn:Hcur; [by intros [= _ <-]| |by intros [= _ <-]].
    destruct (node_at t (lex_step cur c)) as [[]|] eqn:Hnext;
      [by intros [= _ <-]|by apply IH|].
    destruct (is_dot c) eqn:Hdot; [by intros [= _ <-]|].
    rewrite lex_step_name in * by done. apply IH.
    apply tree_wf_insert; [done..|by rewrite Hnext].
Qed.

Lemma makedirs_wf path w :
  well_formed w → well_formed (snd (LocalFileMixin_makedirs path w)).
Proof.
  intros [Hcwd Hwf]. destruct (makedirs_extends path w) as [Hc Hext].
  split; [rewrite Hc; by apply Hext|].
  destruct (str_empty (dirname path)) eqn:Hne.
  - unfold LocalFileMixin_makedirs. by rewrite Hne.
  - destruct (LocalFileMixin_makedirs_spec path w Hne) as [->|(r & -> & _)]; [done|].
    simpl.
    destruct (mkdir_p (tree w) (start_dir w (dirname path)) (components (dirname path)))
      as [st t'] eqn:Hrun.
    by apply (mkdir_p_wf _ _ _ _ _ Hwf Hrun).
Qed.

Lemma sys_write_wf w path c w' :
  well_formed w → sys_write w path c = inr w' → well_formed w'.
Proof.
  intros [Hcwd Hwf] (d & last & Hp & _ & _ & Hn & ->)%sys_write_inr.
  destruct (parent_of_inr _ _ _ _ Hp) as (_ & _ & _ & _ & Hd).
  split; simpl.
  - rewrite node_at_insert by apply snoc_not_nil.
    case_decide as Heq; [by rewrite Heq in Hcwd|done].
  - by apply tree_wf_insert.
Qed.

Lemma sys_unlink_wf w path w' :
  well_formed w → sys_unlink w path = inr w' → well_formed w'.
Proof.
  intros [Hcwd Hwf] (d & last & c & _ & _ & _ & Hn & ->)%sys_unlink_inr.
  split; simpl.
  - rewrite node_at_delete by apply snoc_not_nil.
    case_decide as Heq; [by rewrite Heq, Hn in Hcwd|done].
  - apply tree_wf_delete; [done|by rewrite Hn|apply snoc_not_nil].
Qed.

Lemma store_wf path c w : well_formed w → well_formed (snd (store path c w)).
Proof.
  intros Hwf%(makedirs_wf path). rewrite store_unfold.
  destruct (LocalFileMixin_makedirs path w) as [[[]|e] wm]; [|done].
  destruct (sys_write wm path c) as [e|w2] eqn:Hwrite; [done|].
  by apply (sys_write_wf _ _ _ _ Hwf Hwrite).
Qed.

(** The local-file kinds keep a well-formed store well-formed: the
    helper that makes directories, a save and a delete, whether they
    return or raise. *)
Theorem well_formed_is_kept (name loc : option string) (context : gmap string string)
    (w : World) :
  well_formed w →
  (∀ path, well_formed (snd (LocalFileMixin_makedirs path w))) ∧
  (∀ (columns : option (list string)) (supplied : list (DataFrame → Result unit))
     (df : DataFrame),
     well_formed (snd (_save (PandasCSV name loc columns supplied) df context w)) ∧
     well_formed (snd (_delete (PandasCSV name loc columns supplied) context w))) ∧
  (∀ (supplied : list (Obj → Result unit)) (obj : Obj),
     well_formed (snd (_save (Pickle name loc supplied) obj context w)) ∧
     well_formed (snd (_delete (Pickle name loc supplied) context w))).
Proof.
  intros Hwf.
  assert (∀ path, well_formed (snd (os_remove path w))) as Hremove.
  { intros path. rewrite os_remove_unfold.
    destruct (sys_unlink w path) as [e|w'] eqn:Hun; [done|].
    by apply (sys_unlink_wf _ _ _ Hwf Hun). }
  split_and!.
  - intros path. by apply makedirs_wf.
  - intros columns supplied df. split.
    + rewrite _save_unfold. destruct (assert_integrity _ df); [|done].
      destruct (loc_format _ context) as [path|]; [|done].
      by apply (store_wf path (csv_of df)).
    + rewrite _delete_unfold. destruct (loc_format _ context) as [path|]; [|done].
      apply Hremove.
  - intros supplied obj. split.
    + rewrite _save_unfold. destruct (assert_integrity _ obj); [|done].
      destruct (loc_format _ context) as [path|]; [|done].
      change (save (Pickle name loc supplied) path obj) with (Pickle_save path obj).
      destruct (Pickle_save_state path obj w) as [c ->].
      by apply (store_wf path c).
    + rewrite _delete_unfold. destruct (loc_format _ context) as [path|]; [|done].
      apply Hremove.
Qed.

(** ** Save, load, check and delete together *)

Lemma Pickle_load_unfold path w :
  Pickle_load path w =
    match sys_read w path with
    | inr (PickleStream bytes) => (pickle_loads bytes, w)
    | inr EmptyFile => (Raise (Exc (OtherException "EOFError") "Ran out of input"), w)
    | inr (CsvText _ _) => (Raise (Exc UnpicklingError "invalid load key"), w)
    | inl e => (Raise (os_error e path), w)
    end.
Proof.
  unfold Pickle_load, bind, read_file, lift.
  by destruct (sys_read w path) as [e|[| |bytes]].
Qed.

Lemma local_check_unfold {Data} (self : Resource Data) context w path :
  local_file self → loc_format self context = Ok path →
  _check self context w = (Ok (path_isfile path w), w).
Proof.
  intros [Hchk _] Hpath. rewrite _check_unfold, Hpath. unfold check. by rewrite Hchk.
Qed.

Lemma local_delete_unfold {Data} (self : Resource Data) context w path :
  local_file self → loc_format self context = Ok path →
  _delete self context w = os_remove path w.
Proof.
  intros [_ Hdel] Hpath. rewrite _delete_unfold, Hpath. unfold delete_. by rewrite Hdel.
Qed.


(** Saving twice is saving once.  After a save of a local-file kind
    that returned, the same save again returns and leaves the store
    as it is; and a save of any other value that passes the
    assertions, and for [Pickle] can be pickled, returns as well. *)
Theorem save_again (name loc : option string) (context : gmap string string)
    (w w1 : World) :
  (∀ (columns : option (list string)) (supplied : list (DataFrame → Result unit))
     (df : DataFrame),
     let self := PandasCSV name loc columns supplied in
     _save self df context w = (Ok (), w1) →
     _save self df context w1 = (Ok (), w1) ∧
     ∀ df2, assert_integrity self df2 = Ok () →
            ∃ w2, _save self df2 context w1 = (Ok (), w2)) ∧
  (∀ (supplied : list (Obj → Result unit)) (obj : Obj),
     let self := Pickle name loc supplied in
     _save self obj context w = (Ok (), w1) →
     _save self obj context w1 = (Ok (), w1) ∧
     ∀ obj2 stream2, assert_integrity self obj2 = Ok () →
                     pickle_dumps obj2 = Ok stream2 →
                     ∃ w2, _save self obj2 context w1 = (Ok (), w2)).
Proof.
  split.
  - intros columns supplied df self Hsave.
    apply _save_Ok in Hsave as (Hok & path & Hpath & Hsave).
    change (save self path df) with (store path (csv_of df)) in Hsave. split.
    + rewrite _save_unfold, Hok, Hpath. by apply (store_same path (csv_of df) w).
    + intros df2 Hok2. destruct (store_again _ _ _ _ Hsave) as (k & _ & _ & _ & Hagain).
      eexists. rewrite _save_unfold, Hok2, Hpath. apply (Hagain (csv_of df2)).
  - intros supplied obj self Hsave.
    apply _save_Ok in Hsave as (Hok & path & Hpath & Hsave).
    change (save self path obj) with (Pickle_save path obj) in Hsave.
    apply Pickle_save_Ok in Hsave as (stream & Hdumps & Hsave). split.
    + rewrite _save_unfold, Hok, Hpath.
      change (save self path obj) with (Pickle_save path obj).
      rewrite Pickle_save_unfold, Hdumps.
      by apply (store_same path (PickleStream stream) w).
    + intros obj2 stream2 Hok2 Hdumps2.
      destruct (store_again _ _ _ _ Hsave) as (k & _ & _ & _ & Hagain).
      eexists. rewrite _save_unfold, Hok2, Hpath.
      change (save self path obj2) with (Pickle_save path obj2).
      rewrite Pickle_save_unfold, Hdumps2. apply (Hagain (PickleStream stream2)).
Qed.

Lemma read_csv_only_reads path w : snd (read_csv path w) = w.
Proof.
  rewrite read_csv_unfold.
  destruct (sys_read w path) as [e|[|[|h header] records|bytes]]; try done.
  destruct (forallb _ records); [done|].
  by destruct (read_wide (h :: header) records) as [[[? ?] ?]|].
Qed.

Lemma Pickle_load_only_reads path w : snd (Pickle_load path w) = w.
Proof.
  rewrite Pickle_load_unfold. by destruct (sys_read w path) as [e|[| |bytes]].
Qed.

(** Loading and checking only read.  A load of a local-file kind and
    an existence check of any resource with the mix-in leave the
    store as it is, whatever they return or raise. *)
Theorem load_and_check_only_read (name loc : option string)
    (context : gmap string string) (w : World) :
  (∀ (columns : option (list string)) (supplied : list (DataFrame → Result unit)),
     snd (_load (PandasCSV name loc columns supplied) context w) = w) ∧
  (∀ (supplied : list (Obj → Result unit)),
     snd (_load (Pickle name loc supplied) context w) = w) ∧
  (∀ Data (self : Resource Data), local_file self → snd (_check self context w) = w).
Proof.
  split_and!.
  - intros columns supplied. rewrite _load_unfold.
    destruct (loc_format _ context) as [path|]; [|done].
    change (load (PandasCSV name loc columns supplied) path w) with (read_csv path w).
    pose proof (read_csv_only_reads path w) as Hread.
    destruct (read_csv path w) as [[df|e] w0]; simpl in Hread; subst w0; [|done].
    by destruct (assert_integrity _ _).
  - intros supplied. rewrite _load_unfold.
    destruct (loc_format _ context) as [path|]; [|done].
    change (load (Pickle name loc supplied) path w) with (Pickle_load path w).
    pose proof (Pickle_load_only_reads path w) as Hread.
    destruct (Pickle_load path w) as [[obj|e] w0]; simpl in Hread; subst w0; [|done].
    by destruct (assert_integrity _ _).
  - intros Data self [Hchk _]. rewrite _check_unfold.
    destruct (loc_format self context) as [path|]; [|done].
    unfold check. by rewrite Hchk.
Qed.



Lemma sys_unlink_then_absent w path w' :
  sys_unlink w path = inr w' → path_isfile path w' = false.
Proof.
  intros (d & last & c & Hp & Hdot & Hslash & Hn & ->)%sys_unlink_inr.
  assert (keeps_dirs (tree w) (delete (d ++ [last]) (tree w))) as Hkeep.
  { apply keeps_dirs_delete; [apply snoc_not_nil | by rewrite Hn]. }
  apply (parent_of_keeps_dirs _ _ _ _ _ Hkeep) in Hp.
  unfold path_isfile, stat. rewrite (namei_parent _ _ _ _ Hp Hdot Hslash).
  simpl tree. rewrite node_at_delete by apply snoc_not_nil. by rewrite decide_True.
Qed.

(** A delete takes one regular file away, or nothing.  For a
    resource with the mix-in's methods: a delete that raises leaves
    the store as it was; a delete that returns has removed one key,
    which held a regular file, nothing else has changed, and the
    existence check then answers [false]. *)
Theorem delete_removes_one_file {Data} (self : Resource Data)
    (context : gmap string string) (w w' : World) :
  local_file self →
  (∀ e, _delete self context w = (Raise e, w') → w' = w) ∧
  (_delete self context w = (Ok (), w') →
   (∃ k c, tree w !! k = Some (File c) ∧ w' = set_tree w (delete k (tree w))) ∧
   _check self context w' = (Ok false, w')).
Proof.
  intros Hlocal. rewrite _delete_unfold.
  destruct (loc_format self context) as [path|e0] eqn:Hpath;
    [|split; [by intros e [= _ <-]|done]].
  destruct Hlocal as [Hchk Hdel]. unfold delete_. rewrite Hdel. simpl.
  unfold LocalFileMixin_delete. rewrite os_remove_unfold.
  destruct (sys_unlink w path) as [e0|w2] eqn:Hun; [split; [by intros e [= _ <-]|done]|].
  split; [done|]. intros [= <-]. split.
  - destruct (sys_unlink_inr _ _ _ Hun) as (d & last & c & _ & _ & _ & Hn & ->).
    exists (d ++ [last]), c. split; [by rewrite <-node_at_snoc|done].
  - rewrite (local_check_unfold self context w2 path); [|done..].
    by rewrite (sys_unlink_then_absent _ _ _ Hun).
Qed.


Lemma removelast_snoc {A} (l : list A) (x : A) : removelast (l ++ [x]) = l.
Proof. apply removelast_last. Qed.

(** In a well-formed store, a path that leads to a regular file can
    be unlinked. *)
Lemma isfile_unlink w path :
  well_formed w → path_isfile path w = true → ∃ w', sys_unlink w path = inr w'.
Proof.
  intros Hwf. unfold path_isfile, stat, namei.
  destruct (str_empty path) eqn:Hne; [done|].
  destruct (trailing_slash path) eqn:Hslash.
  { rewrite walk_app. destruct (walk _ _ (components path)) as [e|k]; [done|].
    simpl. unfold step. destruct (node_at (tree w) k) as [[]|] eqn:Hk; [done| |done].
    unfold lex_step. simpl. by rewrite Hk. }
  rewrite app_nil_r.
  destruct (components path) as [|c0 cs0] eqn:Hcs using rev_ind.
  { simpl. by rewrite (start_dir_dir w path Hwf). }
  clear IHcs0. rename c0 into last, cs0 into init.
  rewrite walk_app. destruct (walk _ _ init) as [e|d] eqn:Hwalk; [done|].
  simpl. destruct (step (tree w) d last) as [e|k] eqn:Hstep; [done|].
  apply step_inr in Hstep as [Hd ->].
  destruct (node_at (tree w) (lex_step d last)) as [[c|]|] eqn:Hk; [|done..]. intros _.
  assert (is_dot last = false) as Hdot.
  { unfold is_dot, lex_step in *.
    destruct (bool_decide (last = ".")); [congruence|].
    destruct (bool_decide (last = "..")); [|done]. exfalso.
    destruct d as [|x d _] using rev_ind; [done|].
    rewrite removelast_snoc in Hk. destruct Hwf as [_ Hwf].
    rewrite (Hwf d x) in Hk; [done|]. rewrite <-node_at_snoc. by rewrite Hd. }
  rewrite lex_step_name in Hk by done.
  unfold sys_unlink, parent_of.
  rewrite Hne, Hcs, rev_unit, rev_involutive, Hwalk, Hd, Hdot, Hk, Hslash.
  by eexists.
Qed.

(** What the existence check finds, a delete can take away.  In a
    well-formed store, for a resource with the mix-in's methods: when
    the existence check answers [true], the delete returns. *)
Theorem checked_file_can_be_deleted {Data} (self : Resource Data)
    (context : gmap string string) (w : World) :
  well_formed w → local_file self →
  _check self context w = (Ok true, w) →
  ∃ w', _delete self context w = (Ok (), w') ∧ _check self context w' = (Ok false, w').
Proof.
  intros Hwf Hlocal. rewrite _check_unfold, _delete_unfold.
  destruct (loc_format self context) as [path|] eqn:Hpath; [|done].
  destruct Hlocal as [Hchk Hdel]. unfold check, delete_. rewrite Hchk, Hdel. simpl.
  intros [= Hisfile].
  destruct (isfile_unlink _ _ Hwf Hisfile) as [w' Hun].
  exists w'. unfold LocalFileMixin_delete. rewrite os_remove_unfold, Hun.
  split; [done|].
  rewrite (local_check_unfold self context w' path); [|done..].
  by rewrite (sys_unlink_then_absent _ _ _ Hun).
Qed.

(** ** A save into directories that are not there yet *)



(** ** Assertions and locations *)

Lemma unresolved_stops {Data} (self : Resource Data) context data w e :
  loc_format self context = Raise e → every_operation_raises self context data w e.
Proof.
  intros Hpath. unfold every_operation_raises.
  rewrite _check_unfold, _delete_unfold, _load_unfold, _save_unfold, Hpath.
  split_and!; [done..|]. by intros ->.
Qed.

(** A location that does not resolve stops every operation before
    the store is touched.  Without a location each of the four
    operations raises an [AttributeError]; with a [{key}]-style
    template and a context that lacks one of its keys each raises the
    [KeyError] of a key that is missing; the store is as it was. *)
Theorem unresolved_location_stops {Data} (self : Resource Data)
    (context : gmap string string) (data : Data) (w : World) :
  (loc self = None →
   ∃ msg, every_operation_raises self context data w (Exc AttributeError msg)) ∧
  (∀ template key,
     loc self = Some template → plain_template template = true →
     key ∈ placeholders template → context !! key = None →
     ∃ missing, missing ∈ placeholders template ∧ context !! missing = None ∧
                every_operation_raises self context data w (Exc KeyError missing)).
Proof.
  split.
  - intros Hloc. eexists. apply unresolved_stops. unfold loc_format. by rewrite Hloc.
  - intros template key Hloc Hplain Hkey Hnone.
    destruct (plain_template_markup _ Hplain) as (xs & Hxs & Hnamed).
    rewrite placeholders_keys, Hxs in *. simpl in *.
    assert (loc_format self context = render_all context xs None) as Hfmt.
    { unfold loc_format, format. by rewrite Hloc, Hxs. }
    destruct (render_all context xs None) as [r|e] eqn:Hrender.
    + destruct (render_all_plain_Ok_inv _ _ _ Hnamed Hrender key Hkey) as [v Hv].
      congruence.
    + destruct (render_all_plain_Raise _ _ _ Hnamed Hrender) as (k & -> & Hk & Hk').
      exists k. split_and!; [done..|]. by apply unresolved_stops.
Qed.

Lemma escape_no_brace text : no_brace text = true → escape text = text.
Proof.
  induction text as [|c text IH]; [done|]. simpl.
  intros [[Hl Hr]%andb_prop Htext]%andb_prop.
  apply negb_true_iff in Hl, Hr. rewrite Hl, Hr. simpl. by rewrite IH.
Qed.

Lemma scan_escape (ctx : gmap string string) text :
  ∃ xs, scan Text (escape text) = (xs, None) ∧ render_all ctx xs None = Ok text.
Proof.
  induction text as [|c text (xs & Hscan & Hrender)]; [by exists []|].
  exists (Lit c :: xs). simpl escape.
  destruct (bool_decide (c = lbrace)) eqn:Hl; [|destruct (bool_decide (c = rbrace)) eqn:Hr];
    simpl.
  - rewrite Hl. apply bool_decide_eq_true in Hl as ->.
    rewrite Hscan. split; [done|]. simpl. by rewrite Hrender.
  - rewrite Hl, Hr. apply bool_decide_eq_true in Hr as ->.
    rewrite Hscan. split; [done|]. simpl. by rewrite Hrender.
  - rewrite Hl, Hr, Hscan. split; [done|]. simpl. by rewrite Hrender.
Qed.

(** A location can be literal text.  A template in which every brace
    of [text] is doubled resolves to [text], whatever the context
    holds; so a location without any brace is the path as it is. *)
Theorem literal_location {Data} (self : Resource Data) (text : string)
    (context : gmap string string) :
  (loc self = Some (escape text) → loc_format self context = Ok text) ∧
  (no_brace text = true → loc self = Some text → loc_format self context = Ok text).
Proof.
  assert (loc self = Some (escape text) → loc_format self context = Ok text) as Hesc.
  { intros Hloc. unfold loc_format, format, markup. rewrite Hloc.
    destruct (scan_escape context text) as (xs & -> & Hrender). done. }
  split; [done|]. intros Hplain Hloc. apply Hesc. by rewrite escape_no_brace.
Qed.

(** ** A delete after a save *)

Lemma store_then_remove path c w w1 :
  store path c w = (Ok (), w1) →
  ∃ w2, os_remove path w1 = (Ok (), w2) ∧
        path_isfile path w2 = false ∧
        cwd w2 = cwd w ∧
        (∀ k, node_at (tree w) k = Some Dir → node_at (tree w2) k = Some Dir) ∧
        (∀ k c', node_at (tree w2) k = Some (File c') →
                 node_at (tree w) k = Some (File c')).
Proof.
  rewrite store_unfold.
  destruct (makedirs_extends path w) as [Hcwd Hext].
  pose proof (makedirs_new path w) as Hnew.
  destruct (LocalFileMixin_makedirs path w) as [[[]|e] wm]; [|done].
  destruct (sys_write wm path c) as [e|w'] eqn:Hwrite; [done|]. intros [= ->].
  destruct (sys_write_inr_dirname _ _ _ _ Hwrite)
    as (Hne & Hslash & Hdot & d & Hwalk & Hd & Hp & Hn & ->).
  simpl in Hcwd, Hext, Hnew.
  set (k := d ++ [basename path]) in *.
  assert (k ≠ []) as Hk by apply snoc_not_nil.
  assert (keeps_dirs (tree wm) (<[k := File c]> (tree wm))) as Hkeep
    by by apply keeps_dirs_insert.
  set (w1 := set_tree wm (<[k := File c]> (tree wm))).
  assert (sys_unlink w1 path = inr (set_tree w1 (delete k (tree w1)))) as Hun.
  { unfold sys_unlink, w1. rewrite (parent_of_keeps_dirs _ _ _ _ _ Hkeep Hp), Hdot.
    fold k. simpl. rewrite node_at_insert by done. rewrite decide_True by done.
    by rewrite Hslash. }
  exists (set_tree w1 (delete k (tree w1))).
  rewrite os_remove_unfold, Hun. split_and!; [done| |done|..].
  - by apply (sys_unlink_then_absent w1).
  - intros x Hx. simpl. rewrite node_at_delete by done.
    apply Hext in Hx. rewrite decide_False by (intros ->; congruence).
    by apply Hkeep.
  - intros x c'. simpl. rewrite node_at_delete by done.
    case_decide as Hxk; [done|]. rewrite node_at_insert by done.
    rewrite decide_False by done. intros Hx.
    destruct (node_at (tree w) x) as [n|] eqn:Hwx.
    + apply Hext in Hwx. congruence.
    + destruct (Hnew x Hwx) as [Hdir _]; [by rewrite Hx|congruence].
Qed.

(** A delete undoes a save, up to the directories the save made.
    After a save of either local-file kind that returned, a delete
    with the same context returns and the existence check answers
    [false]; every directory of the store before the save is still
    there, and every regular file left was there before the save,
    with the same content. *)
Theorem save_then_delete (name loc : option string) (context : gmap string string)
    (w w1 : World) :
  (∀ columns supplied df,
     let self := PandasCSV name loc columns supplied in
     _save self df context w = (Ok (), w1) →
     ∃ w2, _delete self context w1 = (Ok (), w2) ∧
           _check self context w2 = (Ok false, w2) ∧
           cwd w2 = cwd w ∧
           (∀ k, node_at (tree w) k = Some Dir → node_at (tree w2) k = Some Dir) ∧
           (∀ k c, node_at (tree w2) k = Some (File c) →
                   node_at (tree w) k = Some (File c))) ∧
  (∀ supplied obj,
     let self := Pickle name loc supplied in
     _save self obj context w = (Ok (), w1) →
     ∃ w2, _delete self context w1 = (Ok (), w2) ∧
           _check self context w2 = (Ok false, w2) ∧
           cwd w2 = cwd w ∧
           (∀ k, node_at (tree w) k = Some Dir → node_at (tree w2) k = Some Dir) ∧
           (∀ k c, node_at (tree w2) k = Some (File c) →
                   node_at (tree w) k = Some (File c))).
Proof.
  split.
  - intros columns supplied df self Hsave.
    apply _save_Ok in Hsave as (_ & path & Hpath & Hsave).
    destruct (store_then_remove path (csv_of df) w w1 Hsave)
      as (w2 & Hrm & Habsent & Hrest).
    exists w2. rewrite (local_delete_unfold self context w1 path); [|done..].
    rewrite (local_check_unfold self context w2 path); [|done..].
    by rewrite Habsent.
  - intros supplied obj self Hsave.
    apply _save_Ok in Hsave as (_ & path & Hpath & Hsave).
    change (save self path obj) with (Pickle_save path obj) in Hsave.
    apply Pickle_save_Ok in Hsave as (stream & _ & Hsave).
    destruct (store_then_remove path (PickleStream stream) w w1 Hsave)
      as (w2 & Hrm & Habsent & Hrest).
    exists w2. rewrite (local_delete_unfold self context w1 path); [|done..].
    rewrite (local_check_unfold self context w2 path); [|done..].
    by rewrite Habsent.
Qed.

(** ** Any columns through a CSV file *)



End Store.

(** ** The theorems at work on sample data *)

#[local] Existing Instance sample_runtime.

Lemma sample_world_well_formed : well_formed sample_world.
Proof.
  split; [reflexivity|]. intros k c [n Hn]. simpl in Hn.
  destruct (decide (["home"] = k ++ [c])) as [Heq|Hne].
  - destruct k as [|x [|y k]]; [reflexivity|discriminate Heq..].
  - rewrite lookup_singleton_ne in Hn by exact Hne. discriminate Hn.
Defined.

Lemma stored_world_well_formed : well_formed (stored_world).
Proof.
  split; [reflexivity|]. intros k c [n Hn]. simpl in Hn.
  apply lookup_insert_Some in Hn as [[Heq _]|[_ Hn]].
  - destruct k as [|x [|y k]]; [reflexivity|discriminate Heq..].
  - destruct (decide (["home"; "sales.csv"] = k ++ [c])) as [Heq|Hne].
    + destruct k as [|x [|y [|z k]]]; [discriminate Heq| |discriminate Heq..].
      injection Heq as <- <-. reflexivity.
    + rewrite lookup_singleton_ne in Hn by exact Hne. discriminate Hn.
Defined.


Lemma save_asserts_before_writing_witness :
  (∃ e, _save sample_csv other_frame sample_context sample_world = (Raise e, sample_world)) ∧
  _save sample_csv sample_frame sample_context sample_world =
    bind (lift (loc_format sample_csv sample_context))
         (λ path, save sample_csv path sample_frame) sample_world.
Proof.
  pose proof (save_asserts_before_writing sample_csv sample_context other_frame sample_world)
    as [Hfails _].
  pose proof (save_asserts_before_writing sample_csv sample_context sample_frame sample_world)
    as [_ Hpasses].
  split.
  - destruct Hfails as (e & _ & Hsave & _).
    + apply Exists_cons_hd. eexists. vm_compute. reflexivity.
    + by exists e.
  - apply Hpasses. repeat constructor.
Defined.

Lemma load_asserts_in_order_witness :
  _load strict_csv ∅ stored_world = (Raise (Exc AssertionError EmptyString), stored_world).
Proof.
  destruct (load_asserts_in_order strict_csv ∅ stored_world stored_world
              "sales.csv" stored_frame) as [Hfirst _].
  - vm_compute. reflexivity.
  - vm_compute. reflexivity.
  - apply (Hfirst 1 nonempty).
    + reflexivity.
    + reflexivity.
    + repeat constructor.
Defined.

(** C2, as stated, fails: the error of a failing assertion is passed
    on as the assertion raised it, here an [AssertionError] without a
    message, which does not name the resource. *)
Lemma load_error_need_not_name_resource :
  ∃ e, _load strict_csv ∅ stored_world = (Raise e, stored_world) ∧
       assert_integrity strict_csv stored_frame = Raise e ∧
       ¬ integrity_violation strict_csv e.
Proof.
  exists (Exc AssertionError EmptyString). split_and!.
  - vm_compute. reflexivity.
  - vm_compute. reflexivity.
  - intros [_ (pre & post & Hmsg)]. simpl in Hmsg.
    destruct pre; discriminate Hmsg.
Qed.

Lemma resolve_plain_template_witness :
  loc_format sample_csv sample_context = Ok "out/r1/sales.csv".
Proof.
  destruct (resolve_plain_template sample_csv "out/{run}/sales.csv" sample_context)
    as (_ & _ & Hok & _).
  - reflexivity.
  - vm_compute. reflexivity.
  - rewrite Hok.
    + vm_compute. reflexivity.
    + intros k Hk. vm_compute in Hk. apply list_elem_of_singleton in Hk as ->.
      vm_compute. eexists. reflexivity.
Defined.

(** C4, as stated, fails: a location that is no [{key}]-style
    template does not resolve although no key it asks for is
    missing.  A brace on its own is a [ValueError]; a numbered field
    is looked up among the positional arguments, of which there are
    none, whatever the context holds under that number. *)
Lemma resolve_fails_with_no_key_missing :
  ((∀ k, k ∈ placeholders "out/}/sales.csv" → is_Some ((∅ : gmap string string) !! k)) ∧
   loc_format (brace_resource (Cell:=Scalar)) ∅ =
     Raise (Exc ValueError "Single '}' encountered in format string")) ∧
  ((∀ k, k ∈ placeholders "out/{0}/sales.csv" → is_Some (numbered_context !! k)) ∧
   loc_format (numbered_resource (Cell:=Scalar)) numbered_context =
     Raise (Exc IndexError "Replacement index 0 out of range for positional args tuple")).
Proof.
  split; split.
  - intros k Hk. vm_compute in Hk. by apply elem_of_nil in Hk.
  - vm_compute. reflexivity.
  - intros k Hk. vm_compute in Hk. apply list_elem_of_singleton in Hk as ->.
    vm_compute. eexists. reflexivity.
  - vm_compute. reflexivity.
Qed.

Lemma missing_capability_raises_witness :
  ∃ e, _delete (bare_resource (Cell:=Scalar)) sample_context sample_world =
         (Raise e, sample_world) ∧
       exc_class e = NotImplementedError ∧
       mentions (exc_msg e) "resource <sales>" ∧
       mentions (exc_msg e) "*delete*".
Proof.
  destruct (missing_capability_raises bare_resource "out/r1/sales.csv" sample_frame
              sample_context sample_world) as (_ & _ & _ & _ & Hwrapped).
  destruct Hwrapped as (_ & Hdelete & _).
  - vm_compute. reflexivity.
  - destruct Hdelete as (e & Hraises & Hclass & _ & Hname & _ & Hop & _).
    + reflexivity.
    + exists e. split_and!.
      * exact Hraises.
      * exact Hclass.
      * apply (Hname "sales"). reflexivity.
      * exact Hop.
Defined.







Lemma assert_columns_outcome_witness :
  assert_columns (Some "sales") (Some ["a"; "b"]) (other_frame (Cell:=Scalar)) =
    Raise (Exc TypeError "set expected at most 1 argument, got 2") ∧
  _save sample_csv (other_frame (Cell:=Scalar)) sample_context sample_world =
    (Raise (Exc TypeError "set expected at most 1 argument, got 2"), sample_world).
Proof.
  destruct (assert_columns_outcome (Some "sales") ["a"; "b"] (other_frame (Cell:=Scalar)))
    as [_ Hdiffer].
  destruct Hdiffer as [Hassert Hsave].
  - intros Heq. apply (f_equal (λ s : gset string, bool_decide ("b" ∈ s))) in Heq.
    vm_compute in Heq. discriminate Heq.
  - split; [exact Hassert | apply Hsave].
Defined.

Lemma undeclared_columns_accept_all_witness :
  assert_integrity strict_csv sample_frame = Ok () ∧
  assert_integrity strict_csv stored_frame = Raise (Exc AssertionError EmptyString).
Proof.
  destruct (undeclared_columns_accept_all (Some "sales") (Some "sales.csv") [nonempty]
              sample_frame) as (_ & _ & _ & _ & _ & Hpass & _).
  destruct (undeclared_columns_accept_all (Some "sales") (Some "sales.csv") [nonempty]
              stored_frame) as (_ & _ & _ & Hsupplied & _).
  split.
  - apply Hpass. repeat constructor.
  - change (assert_integrity strict_csv stored_frame)
      with (assert_integrity (PandasCSV (Some "sales") (Some "sales.csv") None [nonempty])
              stored_frame).
    rewrite Hsupplied. reflexivity.
Defined.

(** With [index=True] the row labels would come back as a column of
    their own. *)
Example to_csv_with_index_adds_a_column :
  fst (bind (to_csv sample_frame "sales.csv" true) (λ _, read_csv "sales.csv") sample_world) =
    Ok {| df_columns := ["Unnamed: 0"; "b"; "a"];
          df_index := [Int 0; Int 1];
          df_rows := [[Int 10; Int 1; Int 2]; [Int 20; Int 3; Int 4]] |}.
Proof. vm_compute. reflexivity. Qed.

(** ** The further theorems at work on sample data *)

Lemma well_formed_is_kept_witness :
  well_formed (snd (_save sample_csv sample_frame sample_context sample_world)) ∧
  well_formed (snd (_delete sample_pickle sample_context stored_world)).
Proof.
  destruct (well_formed_is_kept (Some "sales") (Some "out/{run}/sales.csv")
              sample_context sample_world sample_world_well_formed) as (_ & Hcsv & _).
  destruct (well_formed_is_kept (Some "model") (Some "out/{run}/model.pkl")
              sample_context stored_world stored_world_well_formed) as (_ & _ & Hpickle).
  split.
  - apply (Hcsv (Some ["a"; "b"]) [] sample_frame).
  - apply (Hpickle [] (Picklable "model")).
Defined.


Lemma save_again_witness :
  _save sample_csv sample_frame sample_context
    (snd (_save sample_csv sample_frame sample_context sample_world)) =
  (Ok (), snd (_save sample_csv sample_frame sample_context sample_world)).
Proof.
  destruct (save_again (Some "sales") (Some "out/{run}/sales.csv") sample_context
              sample_world (snd (_save sample_csv sample_frame sample_context sample_world)))
    as [Hcsv _].
  destruct (Hcsv (Some ["a"; "b"]) [] sample_frame) as [Hsame _].
  - vm_compute. reflexivity.
  - exact Hsame.
Defined.

Lemma load_and_check_only_read_witness :
  snd (_check strict_csv ∅ stored_world) = stored_world ∧
  snd (_load strict_csv ∅ stored_world) = stored_world.
Proof.
  destruct (load_and_check_only_read (Some "sales") (Some "sales.csv") ∅ stored_world)
    as (Hload & _ & Hcheck).
  split.
  - apply Hcheck. split; reflexivity.
  - apply (Hload None [nonempty]).
Defined.


Lemma delete_removes_one_file_witness :
  _check strict_csv ∅ (snd (_delete strict_csv ∅ stored_world)) =
    (Ok false, snd (_delete strict_csv ∅ stored_world)) ∧
  (∀ e, _delete sample_csv sample_context sample_world = (Raise e, sample_world) →
        sample_world = sample_world).
Proof.
  destruct (delete_removes_one_file strict_csv ∅ stored_world
              (snd (_delete strict_csv ∅ stored_world))) as [_ Hreturns].
  - split; reflexivity.
  - destruct (delete_removes_one_file sample_csv sample_context sample_world sample_world)
      as [Hraises _].
    + split; reflexivity.
    + split; [|exact Hraises]. apply Hreturns. vm_compute. reflexivity.
Defined.

Lemma checked_file_can_be_deleted_witness :
  ∃ w', _delete strict_csv ∅ stored_world = (Ok (), w') ∧
        _check strict_csv ∅ w' = (Ok false, w').
Proof.
  apply (checked_file_can_be_deleted strict_csv ∅ stored_world).
  - exact stored_world_well_formed.
  - split; reflexivity.
  - vm_compute. reflexivity.
Defined.



Lemma unresolved_location_stops_witness :
  (∃ missing, missing ∈ placeholders "out/{run}/sales.csv" ∧
              (∅ : gmap string string) !! missing = None ∧
              every_operation_raises sample_csv ∅ sample_frame sample_world
                (Exc KeyError missing)) ∧
  (∃ msg, every_operation_raises
            (Resource_init None None [])
            sample_context (sample_frame (Cell:=Scalar)) sample_world (Exc AttributeError msg)).
Proof.
  destruct (unresolved_location_stops sample_csv ∅ sample_frame sample_world)
    as [_ Hmissing].
  destruct (unresolved_location_stops
              (Resource_init None None [])
              sample_context (sample_frame (Cell:=Scalar)) sample_world) as [Hnone _].
  split.
  - apply (Hmissing "out/{run}/sales.csv" "run").
    + reflexivity.
    + vm_compute. reflexivity.
    + vm_compute. apply list_elem_of_singleton. reflexivity.
    + reflexivity.
  - apply Hnone. reflexivity.
Defined.

Lemma literal_location_witness :
  loc_format (Resource_init (Data:=unit)
                None (Some "out/{{raw}}/sales.csv") []) sample_context =
    Ok "out/{raw}/sales.csv" ∧
  loc_format strict_csv sample_context = Ok "sales.csv".
Proof.
  destruct (literal_location
              (Resource_init (Data:=unit)
                 None (Some "out/{{raw}}/sales.csv") [])
              "out/{raw}/sales.csv" sample_context) as [Hescaped _].
  destruct (literal_location strict_csv "sales.csv" sample_context) as [_ Hplain].
  split.
  - apply Hescaped. reflexivity.
  - apply Hplain; reflexivity.
Defined.

Lemma save_then_delete_witness :
  ∃ w2, _delete sample_csv sample_context
          (snd (_save sample_csv sample_frame sample_context sample_world)) = (Ok (), w2) ∧
        _check sample_csv sample_context w2 = (Ok false, w2) ∧
        node_at (tree w2) ["home"] = Some Dir.
Proof.
  destruct (save_then_delete (Some "sales") (Some "out/{run}/sales.csv") sample_context
              sample_world (snd (_save sample_csv sample_frame sample_context sample_world)))
    as [Hcsv _].
  destruct (Hcsv (Some ["a"; "b"]) [] sample_frame)
    as (w2 & Hdelete & Hcheck & _ & Hdirs & _).
  - vm_compute. reflexivity.
  - exists w2. split_and!; [exact Hdelete|exact Hcheck|].
    apply Hdirs. reflexivity.
Defined.

